(** * react-native-cache: a shallow embedding of [src/cache.ts]

    The cache keeps, per namespace, an LRU list of logical keys serialised
    with [JSON.stringify] under the composite key ["{namespace}:_lru"];
    values live under ["{namespace}:{key}"] in an asynchronous key-value
    backend ([BackendInterface], implemented by [MemoryStore]).

    Modelling choices:
    - a JS string is the list of its UTF-16 code units ([jstr], units as [N]);
      [js "..."] writes a string literal;
    - [JSON.parse] and [JSON.stringify] are modelled on all JSON values:
      [null], booleans, numbers (IEEE doubles, with the decimal conversions
      of ECMAScript), strings, arrays and objects.  [getLRU] returns whatever
      value the record parses to, and the code that consumes it behaves as
      JavaScript does on that value: [.filter] and [.push] on a non-array
      throw [TypeError], [.length] and [.slice] of a string work on code
      units, [for..of] on a string visits code points, and the template
      literal of [makeCompositeKey] converts a non-string key with ToString;
    - the backend is [MemoryStore], a plain object [{}]: its own properties
      are kept in creation order; [memoryStore[key]] also sees the
      properties [Object.prototype] provides, [memoryStore["__proto__"] = v]
      stores nothing, and [Object.keys] lists integer-like keys first;
    - async code is a state-and-exception monad over the backend; every
      backend call is recorded in a call log;
    - [MemoryStore]'s functions do their work as soon as they are called.
      Promises that are started together ([keys.map(...)] in [multiGet] and
      [multiRemove], the removals under [Promise.all] in [enforceLimits])
      therefore advance in lockstep: each reaches its next [await] before
      any of them resumes, and they resume in the order they were started.
      Each function below writes out the interleaving this produces;
    - a promise started and not awaited ([getItem]'s refresh, [multiGet]'s
      and [multiRemove]'s LRU updates) is taken to settle before the next
      operation starts: its effects are applied, its rejection never reaches
      the caller;
    - [policy.maxEntries] is [undefined] or an integer. *)

From Stdlib Require Import String Ascii List ZArith NArith Lia Bool.
From Stdlib Require Import Permutation.
Import ListNotations.
Open Scope list_scope.
Open Scope Z_scope.
Set Warnings "-register-all".

(* ------------------------------------------------------------------ *)
(** ** JS strings *)

(** A JS string: its UTF-16 code units. *)
Definition jstr := list N.

(** The JS string with the characters of a Rocq string literal. *)
Definition js (s : string) : jstr :=
  map (fun a => N.of_nat (nat_of_ascii a)) (list_ascii_of_string s).

(** [a === b] on strings. *)
Fixpoint jeqb (a b : jstr) : bool :=
  match a, b with
  | [], [] => true
  | x :: a', y :: b' => N.eqb x y && jeqb a' b'
  | _, _ => false
  end.

(** [s.startsWith(p)]. *)
Fixpoint startsWith (s p : jstr) : bool :=
  match p, s with
  | [], _ => true
  | x :: p', y :: s' => N.eqb x y && startsWith s' p'
  | _ :: _, [] => false
  end.

(** The exceptions the modelled code can raise. *)
Inductive js_error := SyntaxError | TypeError.

Inductive exc (A : Type) := Ok (a : A) | Err (e : js_error).
Arguments Ok {A}. Arguments Err {A}.

(** Decimal digits of [n >= 0], least significant first. *)
Fixpoint digits_rev (fuel : nat) (n : Z) : list Z :=
  match fuel with
  | O => []
  | S f => if n <? 10 then [n] else n mod 10 :: digits_rev f (n / 10)
  end.

(** The decimal numeral of [n >= 0] (it has at most [log2 n + 1] digits). *)
Definition decimal (n : Z) : jstr :=
  map (fun d => Z.to_N (48 + d)) (rev (digits_rev (S (Z.to_nat (Z.log2 n))) n)).

Definition ndigits (n : Z) : Z := Z.of_nat (length (decimal n)).

Definition is_digit (u : N) : bool := (48 <=? u)%N && (u <=? 57)%N.

(** The value of a string of decimal digits. *)
Definition digits_value (ds : jstr) : Z :=
  fold_left (fun acc u => acc * 10 + (Z.of_N u - 48)) ds 0.

(* ------------------------------------------------------------------ *)
(** ** Numbers: IEEE doubles *)

Module Num.

(** [NFin neg m e] is [(-1)^neg * m * 2^e], normalised: [2^52 <= m < 2^53]
    and [-1074 <= e <= 971], or [1 <= m < 2^52] and [e = -1074]. *)
Inductive number :=
| NZero (neg : bool)
| NFin (neg : bool) (m e : Z)
| NInf (neg : bool).

(** [===] on numbers ([0 === -0]). *)
Definition eqb (x y : number) : bool :=
  match x, y with
  | NZero _, NZero _ => true
  | NFin n1 m1 e1, NFin n2 m2 e2 => Bool.eqb n1 n2 && (m1 =? m2) && (e1 =? e2)
  | NInf n1, NInf n2 => Bool.eqb n1 n2
  | _, _ => false
  end.

Definition finite (x : number) : bool :=
  match x with NInf _ => false | _ => true end.

(** [a / b] rounded to the nearest integer, ties to even ([a >= 0],
    [b > 0]). *)
Definition round_div (a b : Z) : Z :=
  let q := a / b in
  let r := a mod b in
  if b <? 2 * r then q + 1
  else if 2 * r <? b then q
  else if Z.even q then q else q + 1.

(** [p / (d * 2^e) < B]. *)
Definition scaled_lt (p d e B : Z) : bool :=
  p * 2 ^ Z.max (- e) 0 <? B * d * 2 ^ Z.max e 0.

(** The double nearest to [(-1)^neg * M * 10^E] ([M > 0]), ties to even:
    the rounding of ToNumber on a decimal literal. *)
Definition to_double (neg : bool) (M E : Z) : number :=
  let p := M * 10 ^ Z.max E 0 in
  let d := 10 ^ Z.max (- E) 0 in
  (* the binary exponent that puts p / d in [2^52, 2^53) *)
  let e0 := Z.log2 p - Z.log2 d - 52 in
  let e1 := if scaled_lt p d e0 (2 ^ 52) then e0 - 1 else e0 in
  let e := Z.max e1 (-1074) in
  let m := round_div (p * 2 ^ Z.max (- e) 0) (d * 2 ^ Z.max e 0) in
  let '(m', e') := if m =? 2 ^ 53 then (2 ^ 52, e + 1) else (m, e) in
  if 971 <? e' then NInf neg
  else if m' =? 0 then NZero neg
  else NFin neg m' e'.

(** The value of a decimal literal with digits [ds] and exponent [E].  A
    value below [10^-330] rounds to zero and one of at least [10^310] to
    infinity; these cases are settled without computing [10^E]. *)
Definition of_decimal (neg : bool) (ds : jstr) (E : Z) : number :=
  let M := digits_value ds in
  if M =? 0 then NZero neg
  else if 310 <? E + ndigits M then NInf neg
  else if E + ndigits M <? -330 then NZero neg
  else to_double neg M E.

(** The [n] with [10^(n-1) <= a / b < 10^n] ([a, b > 0]). *)
Definition decimal_exponent (a b : Z) : Z :=
  let t := ndigits a - ndigits b in
  if b * 10 ^ Z.max t 0 <=? a * 10 ^ Z.max (- t) 0 then t + 1 else t.

(** Number::toString, step 5: the shortest digit string [s] ([k] digits,
    decimal exponent [n]) that reads back as [m * 2^e]; among two such of
    [k] digits the closer, and on a tie the even one.  For each [k] the
    candidates are the two [k]-digit neighbours of the value; 17 digits
    always suffice. *)
Fixpoint shortest (fuel : nat) (k m e n0 : Z) : Z * Z * Z :=
  match fuel with
  | O => (0, k, n0)
  | S f =>
      let a := m * 2 ^ Z.max e 0 * 10 ^ Z.max (k - n0) 0 in
      let b := 2 ^ Z.max (- e) 0 * 10 ^ Z.max (n0 - k) 0 in
      let lo := a / b in
      let r := a mod b in
      let '(hi, nhi) := if lo + 1 =? 10 ^ k then (10 ^ (k - 1), n0 + 1)
                        else (lo + 1, n0) in
      let x := NFin false m e in
      let lo_ok := eqb (to_double false lo (n0 - k)) x in
      let hi_ok := negb (r =? 0) && eqb (to_double false hi (nhi - k)) x in
      if lo_ok && hi_ok then
        if 2 * r <? b then (lo, k, n0)
        else if b <? 2 * r then (hi, k, nhi)
        else if Z.even lo then (lo, k, n0) else (hi, k, nhi)
      else if lo_ok then (lo, k, n0)
      else if hi_ok then (hi, k, nhi)
      else shortest f (k + 1) m e n0
  end.

Definition zeros (n : Z) : jstr := repeat 48%N (Z.to_nat n).

(** Number::toString, steps 6 to 9. *)
Definition format (s k n : Z) : jstr :=
  let ds := decimal s in
  if (k <=? n) && (n <=? 21) then ds ++ zeros (n - k)
  else if (0 <? n) && (n <=? 21) then
    firstn (Z.to_nat n) ds ++ [46%N] ++ skipn (Z.to_nat n) ds
  else if (-6 <? n) && (n <=? 0) then js "0." ++ zeros (- n) ++ ds
  else
    let mant := if k =? 1 then ds else firstn 1 ds ++ [46%N] ++ skipn 1 ds in
    mant ++ [101%N] ++ (if n - 1 <? 0 then [45%N] else [43%N])
         ++ decimal (Z.abs (n - 1)).

(** Number::toString(x) in radix 10. *)
Definition to_string (x : number) : jstr :=
  match x with
  | NZero _ => js "0"
  | NInf neg => (if neg then js "-" else []) ++ js "Infinity"
  | NFin neg m e =>
      let '(s, k, n) :=
        shortest 17 1 m e (decimal_exponent (m * 2 ^ Z.max e 0) (2 ^ Z.max (- e) 0)) in
      (if neg then js "-" else []) ++ format s k n
  end.

End Num.

Import Num (number, NZero, NFin, NInf).

(* ------------------------------------------------------------------ *)
(** ** JSON values *)

(** An object keeps its properties in creation order. *)
Inductive jval :=
| JNull
| JBool (b : bool)
| JNum (x : number)
| JStr (s : jstr)
| JArr (xs : list jval)
| JObj (fs : list (jstr * jval)).

(** A property key that is an array index: the canonical numeral of an
    integer below [2^32 - 1]. *)
Definition array_index (k : jstr) : option Z :=
  if forallb is_digit k
     && match k with [] => false | [_] => true | u :: _ => negb (N.eqb u 48) end
  then let v := digits_value k in if v <? 4294967295 then Some v else None
  else None.

Fixpoint insert_index {A} (i : Z) (x : A) (l : list (Z * A)) : list (Z * A) :=
  match l with
  | [] => [(i, x)]
  | (j, y) :: l' => if i <? j then (i, x) :: l else (j, y) :: insert_index i x l'
  end.

(** OrdinaryOwnPropertyKeys: the array-index keys in ascending order, then
    the other keys in creation order. *)
Definition own_order {A} (key : A -> jstr) (xs : list A) : list A :=
  map snd (fold_left (fun acc x => match array_index (key x) with
                                   | Some i => insert_index i x acc
                                   | None => acc
                                   end) xs [])
  ++ filter (fun x => match array_index (key x) with
                      | Some _ => false
                      | None => true
                      end) xs.

(** [obj[k] = v] on an object built by [JSON.parse]: a key seen before keeps
    its place. *)
Fixpoint obj_put (k : jstr) (v : jval) (fs : list (jstr * jval)) : list (jstr * jval) :=
  match fs with
  | [] => [(k, v)]
  | (k', v') :: fs' => if jeqb k k' then (k, v) :: fs' else (k', v') :: obj_put k v fs'
  end.

(** [a === b].  Arrays and objects compare by identity: the code only
    compares the items of an array fresh from [JSON.parse] with a key that
    is a string or an item of another parse, so no two of them are the same
    object. *)
Definition strict_eq (a b : jval) : bool :=
  match a, b with
  | JNull, JNull => true
  | JBool x, JBool y => Bool.eqb x y
  | JNum x, JNum y => Num.eqb x y
  | JStr x, JStr y => jeqb x y
  | _, _ => false
  end.

Fixpoint join (sep : jstr) (xs : list jstr) : jstr :=
  match xs with
  | [] => []
  | [x] => x
  | x :: xs' => x ++ sep ++ join sep xs'
  end.

(** [Array.prototype.join(",")] over converted elements: the first element
    whose conversion throws ends it. *)
Fixpoint join_exc (xs : list (exc jstr)) : exc jstr :=
  match xs with
  | [] => Ok []
  | [x] => x
  | Err e :: _ => Err e
  | Ok a :: xs' => match join_exc xs' with
                   | Ok b => Ok (a ++ [44%N] ++ b)
                   | Err e => Err e
                   end
  end.

(** ToString, as a template literal applies it.  An array joins its
    elements with [","], [null] elements giving [""].  An object goes
    through OrdinaryToPrimitive: [Object.prototype.toString] gives
    ["[object Object]"], unless an own property [toString] (never callable
    in parsed JSON) hides it; [valueOf] then returns the object itself and
    the conversion throws [TypeError]. *)
Fixpoint to_string (v : jval) : exc jstr :=
  match v with
  | JNull => Ok (js "null")
  | JBool b => Ok (if b then js "true" else js "false")
  | JNum x => Ok (Num.to_string x)
  | JStr s => Ok s
  | JArr xs => join_exc (map (fun x => match x with
                                       | JNull => Ok []
                                       | _ => to_string x
                                       end) xs)
  | JObj fs => if existsb (fun kv => jeqb (fst kv) (js "toString")) fs
               then Err TypeError else Ok (js "[object Object]")
  end.

(** UTF-16 surrogates. *)
Definition is_lead (u : N) : bool := (55296 <=? u)%N && (u <=? 56319)%N.
Definition is_trail (u : N) : bool := (56320 <=? u)%N && (u <=? 57343)%N.

(** The code units of a string grouped by code point, as [for..of] visits
    them: a lead surrogate followed by a trail surrogate is one code
    point. *)
Fixpoint code_points (s : jstr) : list jstr :=
  match s with
  | [] => []
  | u :: r =>
      if is_lead u then
        match r with
        | u2 :: r2 => if is_trail u2 then [u; u2] :: code_points r2
                      else [u] :: code_points r
        | [] => [[u]]
        end
      else [u] :: code_points r
  end.

Module Json.

(** *** [JSON.stringify] *)

Definition hexdigit (d : N) : N := if (d <? 10)%N then (48 + d)%N else (87 + d)%N.

(** UnicodeEscape: [\u] and four lowercase hexadecimal digits. *)
Definition unicode_escape (u : N) : jstr :=
  [92%N; 117%N; hexdigit (u / 4096 mod 16); hexdigit (u / 256 mod 16);
   hexdigit (u / 16 mod 16); hexdigit (u mod 16)]%N.

(** QuoteJSONString on one code point that is a single code unit. *)
Definition escape_unit (u : N) : jstr :=
  if (u =? 8)%N then [92; 98]%N
  else if (u =? 9)%N then [92; 116]%N
  else if (u =? 10)%N then [92; 110]%N
  else if (u =? 12)%N then [92; 102]%N
  else if (u =? 13)%N then [92; 114]%N
  else if (u =? 34)%N then [92; 34]%N
  else if (u =? 92)%N then [92; 92]%N
  else if (u <? 32)%N || is_lead u || is_trail u then unicode_escape u
  else [u].

(** QuoteJSONString, without the quotes: a surrogate pair is copied, a lone
    surrogate escaped. *)
Fixpoint quote_units (s : jstr) : jstr :=
  match s with
  | [] => []
  | u :: r =>
      if is_lead u then
        match r with
        | u2 :: r2 => if is_trail u2 then u :: u2 :: quote_units r2
                      else escape_unit u ++ quote_units r
        | [] => escape_unit u
        end
      else escape_unit u ++ quote_units r
  end.

Definition quote (s : jstr) : jstr := [34%N] ++ quote_units s ++ [34%N].

Fixpoint stringify (v : jval) : jstr :=
  match v with
  | JNull => js "null"
  | JBool b => if b then js "true" else js "false"
  | JNum x => if Num.finite x then Num.to_string x else js "null"
  | JStr s => quote s
  | JArr xs => [91%N] ++ join [44%N] (map stringify xs) ++ [93%N]
  | JObj fs =>
      [123%N]
      ++ join [44%N] (map (fun kv => quote (fst kv) ++ [58%N] ++ snd kv)
                          (own_order fst (map (fun kv => (fst kv, stringify (snd kv))) fs)))
      ++ [125%N]
  end.

(** *** [JSON.parse] *)

Definition is_ws (u : N) : bool := (u =? 9)%N || (u =? 10)%N || (u =? 13)%N || (u =? 32)%N.

Fixpoint skip_ws (s : jstr) : jstr :=
  match s with
  | u :: r => if is_ws u then skip_ws r else s
  | [] => []
  end.

Definition hexval (u : N) : option N :=
  if (48 <=? u)%N && (u <=? 57)%N then Some (u - 48)%N
  else if (97 <=? u)%N && (u <=? 102)%N then Some (u - 87)%N
  else if (65 <=? u)%N && (u <=? 70)%N then Some (u - 55)%N
  else None.

Definition hex4 (a b c d : N) : option N :=
  match hexval a, hexval b, hexval c, hexval d with
  | Some x, Some y, Some z, Some t => Some (((x * 16 + y) * 16 + z) * 16 + t)%N
  | _, _, _, _ => None
  end.

(** The escapes of a double quote, a backslash, a slash, and [\b \f \n \r \t]. *)
Definition short_escape (c : N) : option N :=
  if (c =? 34)%N then Some 34%N
  else if (c =? 92)%N then Some 92%N
  else if (c =? 47)%N then Some 47%N
  else if (c =? 98)%N then Some 8%N
  else if (c =? 102)%N then Some 12%N
  else if (c =? 110)%N then Some 10%N
  else if (c =? 114)%N then Some 13%N
  else if (c =? 116)%N then Some 9%N
  else None.

(** The characters of a string literal after its opening quote, up to and
    without the closing one. *)
Fixpoint parse_str (s : jstr) : option (jstr * jstr) :=
  match s with
  | [] => None
  | u :: r =>
      if (u =? 34)%N then Some ([], r)
      else if (u =? 92)%N then
        match r with
        | [] => None
        | c :: r1 =>
            if (c =? 117)%N then
              match r1 with
              | h1 :: h2 :: h3 :: h4 :: r2 =>
                  match hex4 h1 h2 h3 h4, parse_str r2 with
                  | Some x, Some (t, r3) => Some (x :: t, r3)
                  | _, _ => None
                  end
              | _ => None
              end
            else
              match short_escape c, parse_str r1 with
              | Some x, Some (t, r3) => Some (x :: t, r3)
              | _, _ => None
              end
        end
      else if (u <? 32)%N then None
      else match parse_str r with
           | Some (t, r1) => Some (u :: t, r1)
           | None => None
           end
  end.

Fixpoint span_digits (s : jstr) : jstr * jstr :=
  match s with
  | u :: r => if is_digit u then let '(ds, r') := span_digits r in (u :: ds, r')
              else ([], s)
  | [] => ([], [])
  end.

(** A JSON number: an optional minus sign, an integer part (0, or a
    non-zero digit and more digits), an optional fraction (a dot and one or
    more digits), an optional exponent (e or E, an optional sign, one or
    more digits). *)
Definition parse_number (s : jstr) : option (number * jstr) :=
  let '(neg, s1) := match s with
                    | u :: r => if (u =? 45)%N then (true, r) else (false, s)
                    | [] => (false, s)
                    end in
  let int_part := match s1 with
                  | u :: r => if (u =? 48)%N then Some ([u], r)
                              else if is_digit u then Some (span_digits s1)
                              else None
                  | [] => None
                  end in
  match int_part with
  | None => None
  | Some (ip, r1) =>
      let frac := match r1 with
                  | u :: r =>
                      if (u =? 46)%N then
                        let '(ds, r') := span_digits r in
                        match ds with [] => None | _ => Some (ds, r') end
                      else Some ([], r1)
                  | [] => Some ([], r1)
                  end in
      match frac with
      | None => None
      | Some (fp, r2) =>
          let expo := match r2 with
                      | u :: r =>
                          if (u =? 101)%N || (u =? 69)%N then
                            let '(sgn, r') := match r with
                                              | v :: r'' => if (v =? 43)%N then (1, r'')
                                                            else if (v =? 45)%N then (-1, r'')
                                                            else (1, r)
                                              | [] => (1, r)
                                              end in
                            let '(ds, r'') := span_digits r' in
                            match ds with [] => None | _ => Some (sgn * digits_value ds, r'') end
                          else Some (0, r2)
                      | [] => Some (0, r2)
                      end in
          match expo with
          | None => None
          | Some (x, r3) =>
              Some (Num.of_decimal neg (ip ++ fp) (x - Z.of_nat (length fp)), r3)
          end
      end
  end.

(** The elements of a non-empty array after its [[], each read by [pv]. *)
Fixpoint parse_elems (pv : jstr -> option (jval * jstr)) (g : nat) (s : jstr)
  : option (list jval * jstr) :=
  match g with
  | O => None
  | S g' =>
      match pv s with
      | None => None
      | Some (v, r) =>
          match skip_ws r with
          | u :: r' =>
              if (u =? 44)%N then
                match parse_elems pv g' r' with
                | Some (vs, r'') => Some (v :: vs, r'')
                | None => None
                end
              else if (u =? 93)%N then Some ([v], r')
              else None
          | [] => None
          end
      end
  end.

(** The members of a non-empty object after its [{]. *)
Fixpoint parse_members (pv : jstr -> option (jval * jstr)) (g : nat) (s : jstr)
  (acc : list (jstr * jval)) : option (list (jstr * jval) * jstr) :=
  match g with
  | O => None
  | S g' =>
      match skip_ws s with
      | u :: r =>
          if (u =? 34)%N then
            match parse_str r with
            | None => None
            | Some (k, r1) =>
                match skip_ws r1 with
                | c :: r2 =>
                    if (c =? 58)%N then
                      match pv r2 with
                      | None => None
                      | Some (v, r3) =>
                          match skip_ws r3 with
                          | d :: r4 =>
                              if (d =? 44)%N then parse_members pv g' r4 (obj_put k v acc)
                              else if (d =? 125)%N then Some (obj_put k v acc, r4)
                              else None
                          | [] => None
                          end
                      end
                    else None
                | [] => None
                end
            end
          else None
      | [] => None
      end
  end.

(** A JSON value after optional white space.  Each nested value starts at
    least one code unit further into the text, so [length + 1] steps of
    fuel never run out. *)
Fixpoint parse_value (fuel : nat) (s : jstr) : option (jval * jstr) :=
  match fuel with
  | O => None
  | S f =>
      match skip_ws s with
      | [] => None
      | u :: r =>
          if (u =? 91)%N then
            match skip_ws r with
            | c :: r' =>
                if (c =? 93)%N then Some (JArr [], r')
                else match parse_elems (parse_value f) (S (length r)) r with
                     | Some (vs, r'') => Some (JArr vs, r'')
                     | None => None
                     end
            | [] => None
            end
          else if (u =? 123)%N then
            match skip_ws r with
            | c :: r' =>
                if (c =? 125)%N then Some (JObj [], r')
                else match parse_members (parse_value f) (S (length r)) r [] with
                     | Some (fs, r'') => Some (JObj fs, r'')
                     | None => None
                     end
            | [] => None
            end
          else if (u =? 34)%N then
            match parse_str r with
            | Some (t, r') => Some (JStr t, r')
            | None => None
            end
          else if startsWith (u :: r) (js "true") then Some (JBool true, skipn 4 (u :: r))
          else if startsWith (u :: r) (js "false") then Some (JBool false, skipn 5 (u :: r))
          else if startsWith (u :: r) (js "null") then Some (JNull, skipn 4 (u :: r))
          else match parse_number (u :: r) with
               | Some (x, r') => Some (JNum x, r')
               | None => None
               end
      end
  end.

(** [JSON.parse(text)]: [None] is the [SyntaxError]. *)
Definition parse (text : jstr) : option jval :=
  match parse_value (S (length text)) text with
  | Some (v, r) => match skip_ws r with [] => Some v | _ => None end
  | None => None
  end.

End Json.

(* ------------------------------------------------------------------ *)
(** ** The backend: [MemoryStore] *)

(** The own properties of the object [memoryStore], in creation order. *)
Definition store := list (jstr * jstr).

Fixpoint st_get (k : jstr) (s : store) : option jstr :=
  match s with
  | [] => None
  | (k', v') :: t => if jeqb k k' then Some v' else st_get k t
  end.

(** An own property is created at the end, or updated in place. *)
Fixpoint st_set (k v : jstr) (s : store) : store :=
  match s with
  | [] => [(k, v)]
  | (k', v') :: t => if jeqb k k' then (k, v) :: t else (k', v') :: st_set k v t
  end.

(** [delete memoryStore[key]]. *)
Definition st_remove (k : jstr) (s : store) : store :=
  filter (fun kv => negb (jeqb k (fst kv))) s.

(** The properties of [Object.prototype]. *)
Definition proto_names : list jstr :=
  map js ["constructor"; "__defineGetter__"; "__defineSetter__"; "hasOwnProperty";
          "__lookupGetter__"; "__lookupSetter__"; "isPrototypeOf";
          "propertyIsEnumerable"; "toString"; "valueOf"; "__proto__";
          "toLocaleString"]%string.

Definition is_proto_name (k : jstr) : bool := existsb (jeqb k) proto_names.

(** A value read from [memoryStore]: a stored string, or the property of
    [Object.prototype] of that name (a function, or [Object.prototype]
    itself for [__proto__]). *)
Inductive bval := BStr (v : jstr) | BProto (name : jstr).

(** [memoryStore[key] ?? null]. *)
Definition lookup (k : jstr) (s : store) : option bval :=
  match st_get k s with
  | Some v => Some (BStr v)
  | None => if is_proto_name k then Some (BProto k) else None
  end.

(** [memoryStore[key] = value]: for [key = "__proto__"] this calls the
    [__proto__] setter, which ignores a string. *)
Definition st_write (k v : jstr) (s : store) : store :=
  if jeqb k (js "__proto__") then s else st_set k v s.

(** Backend calls, as they appear in the call log. *)
Inductive call :=
| CGetAllKeys
| CGetItem (k : jstr)
| CSetItem (k v : jstr)
| CRemoveItem (k : jstr)
| CMultiGet (ks : list jstr)
| CMultiRemove (ks : list jstr).

Record world := mkWorld { store_of : store; calls : list call }.

Definition log (c : call) (s : store) (w : world) : world :=
  mkWorld s (calls w ++ [c]).

(* ------------------------------------------------------------------ *)
(** ** Async code: a state-and-exception monad *)

Definition M (A : Type) := world -> exc A * world.

Definition ret {A} (a : A) : M A := fun w => (Ok a, w).
Definition throw {A} (e : js_error) : M A := fun w => (Err e, w).
Definition lift {A} (r : exc A) : M A := fun w => (r, w).
Definition bind {A B} (m : M A) (f : A -> M B) : M B :=
  fun w => match m w with
           | (Ok a, w') => f a w'
           | (Err e, w') => (Err e, w')
           end.

Notation "x <- m ;; k" := (bind m (fun x => k))
  (at level 61, m at next level, right associativity).
Notation "m ;; k" := (bind m (fun _ => k)) (at level 61, right associativity).

(** A promise that is started and not awaited. *)
Definition detach {A} (m : M A) : M unit := fun w => (Ok tt, snd (m w)).

(** The outcome of a promise, without propagating its rejection. *)
Definition settle {A} (m : M A) : M (exc A) :=
  fun w => let (r, w') := m w in (Ok r, w').

Fixpoint mapM {A B} (f : A -> M B) (xs : list A) : M (list B) :=
  match xs with
  | [] => ret []
  | x :: t => y <- f x;; ys <- mapM f t;; ret (y :: ys)
  end.

Definition is_ok {A} (r : exc A) : bool :=
  match r with Ok _ => true | Err _ => false end.

Fixpoint first_error {A} (rs : list (exc A)) : option js_error :=
  match rs with
  | [] => None
  | Ok _ :: t => first_error t
  | Err e :: _ => Some e
  end.

(** [MemoryStore]: each function does its work when called. *)
Module Backend.
Definition getAllKeys : M (list jstr) :=
  fun w => (Ok (own_order (fun k => k) (map fst (store_of w))),
            log CGetAllKeys (store_of w) w).
Definition getItem (k : jstr) : M (option bval) :=
  fun w => (Ok (lookup k (store_of w)), log (CGetItem k) (store_of w) w).
Definition setItem (k v : jstr) : M unit :=
  fun w => (Ok tt, log (CSetItem k v) (st_write k v (store_of w)) w).
Definition removeItem (k : jstr) : M unit :=
  fun w => (Ok tt, log (CRemoveItem k) (st_remove k (store_of w)) w).
Definition multiGet (ks : list jstr) : M (list (jstr * option bval)) :=
  fun w => (Ok (map (fun k => (k, lookup k (store_of w))) ks),
            log (CMultiGet ks) (store_of w) w).
Definition multiRemove (ks : list jstr) : M unit :=
  fun w => (Ok tt, log (CMultiRemove ks)
                     (fold_left (fun s k => st_remove k s) ks (store_of w)) w).
End Backend.

(* ------------------------------------------------------------------ *)
(** ** [class Cache] *)

(** [ICachePolicy] declares [maxEntries] only; the options object handed to
    the constructor may carry a [maxSize] (the tests and the README pass
    one), which is kept here as a field that no code path reads. *)
Record ICachePolicy := { maxEntries : option Z; maxSize : option Z }.

Record Cache := { namespace : jstr; policy : ICachePolicy }.

(** [helpers.ts]: [byteLength(str)]. *)
Fixpoint byteLength (s : jstr) : Z :=
  match s with
  | [] => 0
  | u :: r =>
      let code := Z.of_N u in
      1 + (if (0x7F <? code) && (code <=? 0x7FF) then 1
           else if (0x7FF <? code) && (code <=? 0xFFFF) then 2 else 0)
        + byteLength r
  end.

Section Cache.
Variable c : Cache.

Definition makeCompositeKey (key : jstr) : jstr := namespace c ++ js ":" ++ key.

Definition getLRUKey : jstr := makeCompositeKey (js "_lru").

(** [compositeKey.slice(this.namespace.length + 1)]. *)
Definition fromCompositeKey (compositeKey : jstr) : jstr :=
  skipn (length (namespace c) + 1) compositeKey.

(** [if (!lruString) lru = []; else lru = JSON.parse(lruString);].  An
    inherited property converts to a text that is not JSON. *)
Definition decode_lru (lruString : option bval) : exc jval :=
  match lruString with
  | None | Some (BStr []) => Ok (JArr [])
  | Some (BStr t) => match Json.parse t with
                     | Some v => Ok v
                     | None => Err SyntaxError
                     end
  | Some (BProto _) => Err SyntaxError
  end.

Definition getLRU : M jval :=
  lruString <- Backend.getItem getLRUKey;;
  lift (decode_lru lruString).

Definition setLRU (lru : jval) : M unit :=
  Backend.setItem getLRUKey (Json.stringify lru).

(** [lru.push(key)]. *)
Definition push (lru : jval) (key : jstr) : exc jval :=
  match lru with
  | JArr xs => Ok (JArr (xs ++ [JStr key]))
  | _ => Err TypeError
  end.

(** [lru.filter(item => item !== key)]. *)
Definition filter_out (lru : jval) (key : jval) : exc jval :=
  match lru with
  | JArr xs => Ok (JArr (filter (fun item => negb (strict_eq item key)) xs))
  | _ => Err TypeError
  end.

(** [addToLRU] and [removeFromLRU] from the point where the backend read
    in [getLRU] has returned [lruString]. *)
Definition addToLRU_resume (key : jstr) (lruString : option bval) : M unit :=
  lru <- lift (decode_lru lruString);;
  lru' <- lift (push lru key);;
  setLRU lru'.

Definition removeFromLRU_resume (key : jval) (lruString : option bval) : M unit :=
  lru <- lift (decode_lru lruString);;
  newLRU <- lift (filter_out lru key);;
  setLRU newLRU.

Definition addToLRU (key : jstr) : M unit :=
  lruString <- Backend.getItem getLRUKey;;
  addToLRU_resume key lruString.

Definition removeFromLRU (key : jval) : M unit :=
  lruString <- Backend.getItem getLRUKey;;
  removeFromLRU_resume key lruString.

Definition refreshLRU (key : jstr) : M unit :=
  removeFromLRU (JStr key);;
  addToLRU key.

Definition peek (key : jstr) : M (option bval) :=
  Backend.getItem (makeCompositeKey key).

Definition getAllKeys : M (list jstr) :=
  keys <- Backend.getAllKeys;;
  ret (map fromCompositeKey
         (filter (fun k => startsWith k (namespace c) && negb (jeqb k getLRUKey)) keys)).

(** [removeItem(key)]; [enforceLimits] passes it the items of the record,
    which the template literal in [makeCompositeKey] converts. *)
Definition removeItem (key : jval) : M unit :=
  k <- lift (to_string key);;
  Backend.removeItem (makeCompositeKey k);;
  removeFromLRU key.

(** [lru.length], [lru.slice(0, victimCount)] as [for..of] visits it, and
    [lru.slice(victimCount)], on the value [getLRU] returned.  [.slice] is
    missing on every other value. *)
Definition split_victims (m : Z) (lru : jval) : exc (list jval * jval) :=
  match lru with
  | JArr xs =>
      let victimCount := Z.to_nat (Z.max 0 (Z.of_nat (length xs) - m)) in
      Ok (firstn victimCount xs, JArr (skipn victimCount xs))
  | JStr s =>
      let victimCount := Z.to_nat (Z.max 0 (Z.of_nat (length s) - m)) in
      Ok (map JStr (code_points (firstn victimCount s)), JStr (skipn victimCount s))
  | _ => Err TypeError
  end.

(** The loop [removePromises.push(this.remove(victimKey))] and
    [await Promise.all(removePromises)].  Each removal runs, before the next
    one starts, up to its first [await]: the conversion of the key, which
    may throw, and the delete done by [MemoryStore.removeItem].  The
    removals then resume in turn and each [removeFromLRU] reads the record,
    before any of them has written it; they resume again in turn and each
    writes its own filtered copy.  [Promise.all] rejects with the earliest
    rejection: a failed conversion, else the first failed removal. *)
Definition removeAll (victims : list jval) : M unit :=
  started <- mapM (fun v => settle (k <- lift (to_string v);;
                                    Backend.removeItem (makeCompositeKey k))) victims;;
  let live := map fst (filter (fun p => is_ok (snd p)) (combine victims started)) in
  reads <- mapM (fun _ => Backend.getItem getLRUKey) live;;
  finished <- mapM settle (map (fun p => removeFromLRU_resume (fst p) (snd p))
                               (combine live reads));;
  match first_error (started ++ finished) with
  | Some e => throw e
  | None => ret tt
  end.

(** [if (!this.policy.maxEntries) return;] is taken for [undefined] and
    [0]. *)
Definition enforceLimits : M unit :=
  match maxEntries (policy c) with
  | None | Some 0 => ret tt
  | Some m =>
      lru <- getLRU;;
      split <- lift (split_victims m lru);;
      removeAll (fst split);;
      setLRU (snd split)
  end.

Definition setItem (key value : jstr) : M unit :=
  Backend.setItem (makeCompositeKey key) value;;
  refreshLRU key;;
  enforceLimits.

(** [if (!value) return null;] is taken for [null] and for the empty
    string. *)
Definition getItem (key : jstr) : M (option bval) :=
  value <- peek key;;
  match value with
  | None | Some (BStr []) => ret None
  | Some v => detach (refreshLRU key);; ret (Some v)
  end.

(** [keys.map(k => this.refreshLRU(k))] starts every refresh, and each
    runs up to the backend read in [getLRU] before the next starts; the
    batched read follows.  The refreshes then advance in lockstep: every
    [removeFromLRU] writes its copy of the record it read before any
    [addToLRU] reads, and the [addToLRU]s all read before any writes. *)
Definition multiGet (keys : list jstr) : M (list (jstr * option bval)) :=
  reads <- mapM (fun _ => Backend.getItem getLRUKey) keys;;
  results <- Backend.multiGet (map makeCompositeKey keys);;
  detach (
    removed <- mapM settle (map (fun p => removeFromLRU_resume (JStr (fst p)) (snd p))
                                (combine keys reads));;
    let live := map fst (filter (fun p => is_ok (snd p)) (combine keys removed)) in
    reads' <- mapM (fun _ => Backend.getItem getLRUKey) live;;
    mapM settle (map (fun p => addToLRU_resume (fst p) (snd p)) (combine live reads')));;
  ret (map (fun kv => (fromCompositeKey (fst kv), snd kv)) results).

(** [keys.map(k => this.removeFromLRU(k))] starts every removal, each
    reading the record; the batched delete follows; then each removal
    writes its own filtered copy of the record it read. *)
Definition multiRemove (keys : list jstr) : M unit :=
  reads <- mapM (fun _ => Backend.getItem getLRUKey) keys;;
  Backend.multiRemove (map makeCompositeKey keys);;
  detach (mapM settle (map (fun p => removeFromLRU_resume (JStr (fst p)) (snd p))
                           (combine keys reads))).

Definition clearAll : M unit :=
  keys <- Backend.getAllKeys;;
  let namespaceKeys :=
    filter (fun key => jeqb (firstn (length (namespace c)) key) (namespace c)) keys in
  Backend.multiRemove namespaceKeys;;
  setLRU (JArr []).

Definition getAll : M (list (jstr * option bval)) :=
  keys <- getAllKeys;;
  multiGet keys.

End Cache.

(** The writes of the LRU record in a stretch of the call log. *)
Definition metadata_writes (c : Cache) (cs : list call) : nat :=
  length (filter (fun cl => match cl with
                            | CSetItem k _ => jeqb k (getLRUKey c)
                            | _ => false
                            end) cs).

(** The value [getLRU] reads from a store. *)
Definition lru_value (c : Cache) (s : store) : exc jval :=
  decode_lru (lookup (getLRUKey c) s).

Fixpoint strings_of (xs : list jval) : option (list jstr) :=
  match xs with
  | [] => Some []
  | JStr k :: t => option_map (cons k) (strings_of t)
  | _ => None
  end.

(** The order list a store holds for a cache: the record read as an array
    of strings. *)
Definition lru_record (c : Cache) (s : store) : option (list jstr) :=
  match lru_value c s with
  | Ok (JArr xs) => strings_of xs
  | _ => None
  end.

(** The record holds no array item other than strings (it may be missing,
    unreadable, or not an array). *)
Definition record_strings_only (c : Cache) (s : store) : bool :=
  match lru_value c s with
  | Ok (JArr xs) => forallb (fun x => match x with JStr _ => true | _ => false end) xs
  | _ => true
  end.



(** The public operations of [Cache], issued one at a time, each awaited
    before the next. *)
Inductive op :=
| OpSetItem (key value : jstr)
| OpGetItem (key : jstr)
| OpPeek (key : jstr)
| OpRemoveItem (key : jstr)
| OpMultiGet (keys : list jstr)
| OpMultiRemove (keys : list jstr)
| OpGetAllKeys
| OpGetAll
| OpClearAll
| OpEnforceLimits.

Definition run_op (c : Cache) (o : op) : M unit :=
  match o with
  | OpSetItem k v => setItem c k v
  | OpGetItem k => getItem c k;; ret tt
  | OpPeek k => peek c k;; ret tt
  | OpRemoveItem k => removeItem c (JStr k)
  | OpMultiGet ks => multiGet c ks;; ret tt
  | OpMultiRemove ks => multiRemove c ks
  | OpGetAllKeys => getAllKeys c;; ret tt
  | OpGetAll => getAll c;; ret tt
  | OpClearAll => clearAll c
  | OpEnforceLimits => enforceLimits c
  end.

(** Concrete caches and inputs. *)
Module Examples.
Definition empty_world : world := mkWorld [] [].

Definition no_policy : ICachePolicy := {| maxEntries := None; maxSize := None |}.

Definition plain (ns : string) : Cache := {| namespace := js ns; policy := no_policy |}.

(** The test suite's ["max entry policy"] cache. *)
Definition entry_cache : Cache :=
  {| namespace := js "entry"; policy := {| maxEntries := Some 1; maxSize := None |} |}.

(** The test suite's ["max size policy"] cache. *)
Definition size_cache : Cache :=
  {| namespace := js "size"; policy := {| maxEntries := None; maxSize := Some 128 |} |}.

(** A 200-byte value. *)
Definition big_value : jstr := repeat 97%N 200.
End Examples.
(* ------------------------------------------------------------------ *)
(** * Proofs *)

(** ** Strings and the backend store *)

Module StoreFacts.

Lemma jeqb_eq (a b : jstr) : jeqb a b = true <-> a = b.
Proof.
  revert b. induction a as [|x a IH]; intros [|y b]; simpl.
  - tauto.
  - split; intro H; discriminate H.
  - split; intro H; discriminate H.
  - rewrite andb_true_iff, N.eqb_eq, IH.
    split; [intros [-> ->]; reflexivity|intros [= -> ->]; auto].
Qed.

Lemma jeqb_refl (a : jstr) : jeqb a a = true.
Proof. now apply jeqb_eq. Qed.

Lemma jeqb_neq (a b : jstr) : jeqb a b = false <-> a <> b.
Proof. rewrite <- jeqb_eq. destruct (jeqb a b); split; congruence. Qed.

Lemma jeqb_sym (a b : jstr) : jeqb a b = jeqb b a.
Proof.
  destruct (jeqb a b) eqn:E; symmetry.
  - apply jeqb_eq in E. subst. apply jeqb_refl.
  - apply jeqb_neq in E. apply jeqb_neq. auto.
Qed.

Definition jstr_dec : forall a b : jstr, {a = b} + {a <> b} := list_eq_dec N.eq_dec.

Lemma st_get_set_eq (k v : jstr) (s : store) : st_get k (st_set k v s) = Some v.
Proof.
  induction s as [|[k' v'] t IH]; simpl; [now rewrite jeqb_refl|].
  destruct (jeqb k k') eqn:E; simpl; rewrite ?jeqb_refl, ?E; auto.
Qed.

Lemma st_get_set_neq (k k' v : jstr) (s : store) :
  k' <> k -> st_get k' (st_set k v s) = st_get k' s.
Proof.
  intro Hne. apply jeqb_neq in Hne.
  induction s as [|[k1 v1] t IH]; simpl; [now rewrite Hne|].
  destruct (jeqb k k1) eqn:E; simpl.
  - apply jeqb_eq in E; subst k1. now rewrite Hne.
  - now rewrite IH.
Qed.

Lemma st_get_remove_eq (k : jstr) (s : store) : st_get k (st_remove k s) = None.
Proof.
  induction s as [|[k1 v1] t IH]; [reflexivity|]. unfold st_remove in *; simpl.
  destruct (jeqb k k1) eqn:E; simpl; [exact IH|]. now rewrite E.
Qed.

Lemma st_get_remove_neq (k k' : jstr) (s : store) :
  k' <> k -> st_get k' (st_remove k s) = st_get k' s.
Proof.
  intro Hne. induction s as [|[k1 v1] t IH]; [reflexivity|]. unfold st_remove in *; simpl.
  destruct (jeqb k k1) eqn:E; simpl.
  - apply jeqb_eq in E; subst k1. apply jeqb_neq in Hne. now rewrite Hne.
  - now rewrite IH.
Qed.

Lemma st_set_twice (k a b : jstr) (s : store) : st_set k a (st_set k b s) = st_set k a s.
Proof.
  induction s as [|[k1 v1] t IH]; simpl; [now rewrite jeqb_refl|].
  destruct (jeqb k k1) eqn:E; simpl; rewrite ?jeqb_refl, ?E, ?IH; reflexivity.
Qed.

Lemma st_set_same (k v : jstr) (s : store) : st_get k s = Some v -> st_set k v s = s.
Proof.
  induction s as [|[k1 v1] t IH]; simpl; [discriminate|].
  destruct (jeqb k k1) eqn:E.
  - intros [= ->]. apply jeqb_eq in E; subst; reflexivity.
  - intro H. now rewrite IH.
Qed.

Lemma st_remove_absent (k : jstr) (s : store) : st_get k s = None -> st_remove k s = s.
Proof.
  induction s as [|[k1 v1] t IH]; simpl; [reflexivity|].
  unfold st_remove in *; simpl.
  destruct (jeqb k k1) eqn:E; [discriminate|]. intro H; simpl; now rewrite IH.
Qed.

Lemma st_get_fold_remove (ks : list jstr) (k : jstr) (s : store) :
  st_get k (fold_left (fun s k => st_remove k s) ks s) =
  if existsb (jeqb k) ks then None else st_get k s.
Proof.
  revert s; induction ks as [|k1 ks IH]; intro s; [reflexivity|]. simpl.
  rewrite IH. destruct (jeqb k k1) eqn:E; simpl.
  - apply jeqb_eq in E; subst. rewrite st_get_remove_eq.
    now destruct (existsb _ ks).
  - apply jeqb_neq in E. now rewrite st_get_remove_neq.
Qed.

(** Several writes of one key: the last one counts. *)
Lemma st_set_fold_last {A} (k a : jstr) (g : A -> jstr) (xs : list A) (s : store) :
  st_set k a (fold_left (fun s x => st_set k (g x) s) xs s) = st_set k a s.
Proof.
  revert s. induction xs as [|x xs IH]; intro s; simpl; [reflexivity|].
  rewrite IH. apply st_set_twice.
Qed.

Lemma st_set_fold_snoc {A} (k : jstr) (g : A -> jstr) (xs : list A) (x : A) (s : store) :
  fold_left (fun s x => st_set k (g x) s) (xs ++ [x]) s = st_set k (g x) s.
Proof. rewrite fold_left_app. simpl. apply st_set_fold_last. Qed.

(** No property of [Object.prototype] has a [":"] in its name. *)
Lemma proto_names_no_colon :
  forallb (fun p => negb (existsb (N.eqb 58) p)) proto_names = true.
Proof. reflexivity. Qed.

Lemma colon_not_proto (k : jstr) : In 58%N k -> is_proto_name k = false.
Proof.
  intro Hk. unfold is_proto_name. apply not_true_iff_false. intro H.
  apply existsb_exists in H as [p [Hp E]]. apply jeqb_eq in E. subst p.
  pose proof proto_names_no_colon as Hn. rewrite forallb_forall in Hn.
  specialize (Hn k Hp). apply negb_true_iff, not_true_iff_false in Hn. apply Hn.
  apply existsb_exists. exists 58%N. split; [exact Hk|apply N.eqb_refl].
Qed.

Lemma colon_lookup (k : jstr) (s : store) :
  In 58%N k -> lookup k s = option_map BStr (st_get k s).
Proof.
  intro Hk. unfold lookup. destruct (st_get k s); [reflexivity|].
  now rewrite colon_not_proto.
Qed.

Lemma colon_write (k v : jstr) (s : store) :
  In 58%N k -> st_write k v s = st_set k v s.
Proof.
  intro Hk. unfold st_write. destruct (jeqb k (js "__proto__")) eqn:E; [|reflexivity].
  apply jeqb_eq in E. subst k. simpl in Hk.
  repeat (destruct Hk as [Hk|Hk]; [discriminate Hk|]). destruct Hk.
Qed.

End StoreFacts.

(** ** [JSON.stringify] then [JSON.parse] on arrays of strings *)

Module JsonFacts.
Import Json.

Lemma hexval_hexdigit (d : N) : (d < 16)%N -> hexval (hexdigit d) = Some d.
Proof.
  intro H. assert (Hn : exists n, d = N.of_nat n /\ (n < 16)%nat)
    by (exists (N.to_nat d); lia).
  destruct Hn as [n [-> Hn]].
  do 16 (destruct n as [|n]; [reflexivity|]). lia.
Qed.

Lemma hex4_escape (u : N) : (u < 65536)%N ->
  hex4 (hexdigit (u / 4096 mod 16)) (hexdigit (u / 256 mod 16))
       (hexdigit (u / 16 mod 16)) (hexdigit (u mod 16)) = Some u.
Proof.
  intro Hu. unfold hex4. rewrite !hexval_hexdigit by (apply N.mod_lt; discriminate).
  f_equal. zify. Z.to_euclidean_division_equations. lia.
Qed.

Lemma parse_str_u (h1 h2 h3 h4 x : N) (Y : jstr) :
  hex4 h1 h2 h3 h4 = Some x ->
  parse_str (92 :: 117 :: h1 :: h2 :: h3 :: h4 :: Y)%N =
  match parse_str Y with Some (t, r) => Some (x :: t, r) | None => None end.
Proof. intro H. cbn -[hex4]. rewrite H. reflexivity. Qed.

Lemma parse_str_plain (u : N) (Y : jstr) :
  u <> 34%N -> u <> 92%N -> (32 <= u)%N ->
  parse_str (u :: Y) =
  match parse_str Y with Some (t, r) => Some (u :: t, r) | None => None end.
Proof.
  intros H34 H92 H32. simpl.
  rewrite (proj2 (N.eqb_neq _ _) H34), (proj2 (N.eqb_neq _ _) H92),
          (proj2 (N.ltb_ge _ _) H32).
  reflexivity.
Qed.

Lemma parse_str_escape (u : N) (Y : jstr) :
  parse_str (escape_unit u ++ Y) =
  match parse_str Y with Some (t, r) => Some (u :: t, r) | None => None end.
Proof.
  unfold escape_unit.
  destruct (N.eqb_spec u 8) as [->|H8];
    [simpl; destruct (parse_str Y) as [[]|]; reflexivity|].
  destruct (N.eqb_spec u 9) as [->|H9];
    [simpl; destruct (parse_str Y) as [[]|]; reflexivity|].
  destruct (N.eqb_spec u 10) as [->|H10];
    [simpl; destruct (parse_str Y) as [[]|]; reflexivity|].
  destruct (N.eqb_spec u 12) as [->|H12];
    [simpl; destruct (parse_str Y) as [[]|]; reflexivity|].
  destruct (N.eqb_spec u 13) as [->|H13];
    [simpl; destruct (parse_str Y) as [[]|]; reflexivity|].
  destruct (N.eqb_spec u 34) as [->|H34];
    [simpl; destruct (parse_str Y) as [[]|]; reflexivity|].
  destruct (N.eqb_spec u 92) as [->|H92];
    [simpl; destruct (parse_str Y) as [[]|]; reflexivity|].
  destruct ((u <? 32)%N || is_lead u || is_trail u) eqn:E.
  - assert (Hu : (u < 65536)%N).
    { unfold is_lead, is_trail in E.
      repeat rewrite orb_true_iff in E. repeat rewrite andb_true_iff in E.
      rewrite N.ltb_lt in E. rewrite !N.leb_le in E. lia. }
    apply parse_str_u, hex4_escape, Hu.
  - apply parse_str_plain; auto.
    apply orb_false_iff in E as [E _]. apply orb_false_iff in E as [E _].
    now apply N.ltb_ge.
Qed.

Lemma lead_plain (u : N) : is_lead u = true -> u <> 34%N /\ u <> 92%N /\ (32 <= u)%N.
Proof. unfold is_lead. rewrite andb_true_iff, !N.leb_le. lia. Qed.

Lemma trail_plain (u : N) : is_trail u = true -> u <> 34%N /\ u <> 92%N /\ (32 <= u)%N.
Proof. unfold is_trail. rewrite andb_true_iff, !N.leb_le. lia. Qed.

Lemma parse_str_quote_units (n : nat) : forall (s X : jstr),
  (length s <= n)%nat -> parse_str (quote_units s ++ 34%N :: X) = Some (s, X).
Proof.
  induction n as [|n IH]; intros s X Hs.
  - destruct s; [reflexivity|simpl in Hs; lia].
  - destruct s as [|u r]; [reflexivity|]. simpl in Hs.
    cbn [quote_units]. destruct (is_lead u) eqn:L.
    + destruct r as [|u2 r2].
      * rewrite parse_str_escape. reflexivity.
      * destruct (is_trail u2) eqn:T.
        -- destruct (lead_plain u L) as (A1 & A2 & A3).
           destruct (trail_plain u2 T) as (B1 & B2 & B3).
           simpl app. rewrite parse_str_plain, parse_str_plain by assumption.
           rewrite IH by (simpl in Hs; lia). reflexivity.
        -- rewrite <- app_assoc, parse_str_escape, IH by lia. reflexivity.
    + rewrite <- app_assoc, parse_str_escape, IH by lia. reflexivity.
Qed.

Lemma parse_value_quote (f : nat) (x Y : jstr) :
  parse_value (S f) (quote x ++ Y) = Some (JStr x, Y).
Proof.
  unfold quote. rewrite <- !app_assoc. simpl.
  rewrite (parse_str_quote_units (length x)) by lia. reflexivity.
Qed.

Lemma join_quotes_cons (x y : jstr) (L : list jstr) :
  join [44%N] (map quote (x :: y :: L)) = quote x ++ [44%N] ++ join [44%N] (map quote (y :: L)).
Proof. reflexivity. Qed.

Lemma join_quotes_length (x : jstr) (L : list jstr) :
  (S (length L) <= length (join [44%N] (map quote (x :: L))))%nat.
Proof.
  revert x. induction L as [|y L IH]; intro x.
  - simpl. unfold quote. rewrite length_app. simpl. lia.
  - rewrite join_quotes_cons, !length_app. specialize (IH y). simpl length at 1 2. lia.
Qed.

Lemma parse_elems_quotes (f : nat) (L : list jstr) : forall x g X,
  (length (x :: L) <= g)%nat ->
  parse_elems (parse_value (S f)) g (join [44%N] (map quote (x :: L)) ++ 93%N :: X) =
  Some (map JStr (x :: L), X).
Proof.
  induction L as [|y L IH]; intros x g X Hg; (destruct g as [|g]; [simpl in Hg; lia|]).
  - cbn [map join parse_elems]. rewrite parse_value_quote. reflexivity.
  - rewrite join_quotes_cons, <- !app_assoc. cbn [parse_elems].
    rewrite parse_value_quote. cbn -[parse_elems join map quote].
    rewrite IH by (simpl in *; lia). reflexivity.
Qed.

Lemma join_quotes_head (x : jstr) (L : list jstr) :
  exists J, join [44%N] (map quote (x :: L)) = 34%N :: J.
Proof. destruct L; simpl; unfold quote; simpl; eauto. Qed.

Lemma parse_value_step (f : nat) (s : jstr) :
  parse_value (S f) s =
  match skip_ws s with
  | [] => None
  | u :: r =>
      if (u =? 91)%N then
        match skip_ws r with
        | c :: r' =>
            if (c =? 93)%N then Some (JArr [], r')
            else match parse_elems (parse_value f) (S (length r)) r with
                 | Some (vs, r'') => Some (JArr vs, r'')
                 | None => None
                 end
        | [] => None
        end
      else if (u =? 123)%N then
        match skip_ws r with
        | c :: r' =>
            if (c =? 125)%N then Some (JObj [], r')
            else match parse_members (parse_value f) (S (length r)) r [] with
                 | Some (fs, r'') => Some (JObj fs, r'')
                 | None => None
                 end
        | [] => None
        end
      else if (u =? 34)%N then
        match parse_str r with
        | Some (t, r') => Some (JStr t, r')
        | None => None
        end
      else if startsWith (u :: r) (js "true") then Some (JBool true, skipn 4 (u :: r))
      else if startsWith (u :: r) (js "false") then Some (JBool false, skipn 5 (u :: r))
      else if startsWith (u :: r) (js "null") then Some (JNull, skipn 4 (u :: r))
      else match parse_number (u :: r) with
           | Some (x, r') => Some (JNum x, r')
           | None => None
           end
  end.
Proof. reflexivity. Qed.

Lemma parse_value_array (f : nat) (x : jstr) (L : list jstr) (X : jstr) :
  parse_value (S (S f)) (91%N :: join [44%N] (map quote (x :: L)) ++ 93%N :: X) =
  Some (JArr (map JStr (x :: L)), X).
Proof.
  pose proof (join_quotes_length x L) as Hlen.
  destruct (join_quotes_head x L) as [J EJ]. rewrite EJ in *.
  rewrite parse_value_step. cbn -[parse_elems parse_value].
  replace (34%N :: J ++ 93%N :: X) with (join [44%N] (map quote (x :: L)) ++ 93%N :: X)
    by (rewrite EJ; reflexivity).
  rewrite parse_elems_quotes; [reflexivity|].
  rewrite length_app. simpl in *. lia.
Qed.

(** [JSON.parse(JSON.stringify(L))] is [L], for every array of strings. *)
Lemma parse_stringify_strings (L : list jstr) :
  parse (stringify (JArr (map JStr L))) = Some (JArr (map JStr L)).
Proof.
  destruct L as [|x L]; [reflexivity|].
  unfold parse. cbn [stringify]. rewrite map_map.
  change (map (fun x => stringify (JStr x)) (x :: L)) with (map quote (x :: L)).
  change ([91%N] ++ join [44%N] (map quote (x :: L)) ++ [93%N])
    with (91%N :: join [44%N] (map quote (x :: L)) ++ 93%N :: []).
  remember (length (91%N :: join [44%N] (map quote (x :: L)) ++ [93%N])) as n eqn:En.
  destruct n as [|n]; [simpl in En; discriminate|].
  rewrite parse_value_array. reflexivity.
Qed.

Lemma stringify_strings_cons (L : list jstr) :
  stringify (JArr (map JStr L)) = 91%N :: tl (stringify (JArr (map JStr L))).
Proof. reflexivity. Qed.

End JsonFacts.
(** ** Equations of the cache operations *)

Module CacheFacts.
Import StoreFacts JsonFacts.

(** The text [setLRU] writes for an order list of strings. *)
Definition rec (L : list jstr) : jstr := Json.stringify (JArr (map JStr L)).

Lemma bind_ok {A B} (m : M A) (f : A -> M B) (w w' : world) (a : A) :
  m w = (Ok a, w') -> bind m f w = f a w'.
Proof. intro H. unfold bind. now rewrite H. Qed.

Lemma bind_err {A B} (m : M A) (f : A -> M B) (w w' : world) (e : js_error) :
  m w = (Err e, w') -> bind m f w = (Err e, w').
Proof. intro H. unfold bind. now rewrite H. Qed.

Lemma decode_rec (L : list jstr) : decode_lru (Some (BStr (rec L))) = Ok (JArr (map JStr L)).
Proof.
  unfold decode_lru, rec. rewrite stringify_strings_cons. cbv beta iota.
  rewrite <- stringify_strings_cons, parse_stringify_strings. reflexivity.
Qed.

Lemma strings_of_map (L : list jstr) : strings_of (map JStr L) = Some L.
Proof. induction L as [|x L IH]; simpl; [reflexivity|]. now rewrite IH. Qed.

Lemma strings_of_inv (xs : list jval) (L : list jstr) : strings_of xs = Some L -> xs = map JStr L.
Proof.
  revert L. induction xs as [|x xs IH]; intros L H; simpl in H.
  - now injection H as <-.
  - destruct x; try discriminate.
    destruct (strings_of xs) as [L'|] eqn:E; [|discriminate]. simpl in H.
    injection H as <-. simpl. f_equal. now apply IH.
Qed.

Lemma strings_of_all (xs : list jval) :
  forallb (fun x => match x with JStr _ => true | _ => false end) xs = true ->
  exists L, strings_of xs = Some L.
Proof.
  induction xs as [|x xs IH]; simpl; [eauto|].
  destruct x; try discriminate. intro H. destruct (IH H) as [L ->]. simpl. eauto.
Qed.

Lemma filter_keep (L : list jstr) (k : jstr) :
  filter (fun item => negb (strict_eq item (JStr k))) (map JStr L) =
  map JStr (filter (fun item => negb (jeqb item k)) L).
Proof.
  induction L as [|x L IH]; simpl; [reflexivity|].
  destruct (jeqb x k); simpl; now rewrite IH.
Qed.

Lemma keep_notin (L : list jstr) (k : jstr) :
  ~ In k (filter (fun item => negb (jeqb item k)) L).
Proof. rewrite filter_In, jeqb_refl. intros [_ H]; discriminate. Qed.

Lemma keep_absent (L : list jstr) (k : jstr) :
  ~ In k L -> filter (fun item => negb (jeqb item k)) L = L.
Proof.
  induction L as [|x L IH]; intro Hk; simpl; [reflexivity|].
  destruct (jeqb x k) eqn:E.
  - apply jeqb_eq in E. subst. exfalso. apply Hk. now left.
  - simpl. rewrite IH; [reflexivity|]. intro H. apply Hk. now right.
Qed.

Lemma mapM_reads {A} (xs : list A) (k : jstr) (s : store) (cs : list call) :
  mapM (fun _ => Backend.getItem k) xs (mkWorld s cs) =
  (Ok (map (fun _ => lookup k s) xs), mkWorld s (cs ++ map (fun _ => CGetItem k) xs)).
Proof.
  revert cs. induction xs as [|x xs IH]; intro cs; cbn [mapM map].
  - now rewrite app_nil_r.
  - rewrite (bind_ok _ _ _ (mkWorld s (cs ++ [CGetItem k])) (lookup k s)) by reflexivity.
    rewrite (bind_ok _ _ _ _ _ (IH _)). unfold ret. now rewrite <- app_assoc.
Qed.

Lemma combine_const {A B} (xs : list A) (r : B) :
  combine xs (map (fun _ => r) xs) = map (fun x => (x, r)) xs.
Proof. induction xs as [|x xs IH]; simpl; congruence. Qed.

Lemma live_all {A B} (xs : list A) (b : B) :
  map fst (filter (fun p => is_ok (snd p)) (combine xs (map (fun _ => Ok b) xs))) = xs.
Proof. induction xs as [|x xs IH]; simpl; congruence. Qed.

Lemma first_error_ok {A} (xs : list (exc A)) (a : A) :
  first_error (map (fun _ => Ok a) xs) = None.
Proof. induction xs; simpl; auto. Qed.

Section Facts.
Variable c : Cache.

Local Abbreviation lk := (getLRUKey c).
Local Abbreviation ck := (makeCompositeKey c).
Local Abbreviation keep k := (filter (fun item => negb (jeqb item k))).

Lemma ck_colon (k : jstr) : In 58%N (ck k).
Proof. unfold makeCompositeKey. apply in_or_app. right. now left. Qed.

Lemma lookup_ck (k : jstr) (s : store) : lookup (ck k) s = option_map BStr (st_get (ck k) s).
Proof. apply colon_lookup, ck_colon. Qed.

Lemma lookup_lk (s : store) : lookup lk s = option_map BStr (st_get lk s).
Proof. apply lookup_ck. Qed.

Lemma write_ck (k v : jstr) (s : store) : st_write (ck k) v s = st_set (ck k) v s.
Proof. apply colon_write, ck_colon. Qed.

Lemma write_lk (v : jstr) (s : store) : st_write lk v s = st_set lk v s.
Proof. apply write_ck. Qed.

Lemma makeCompositeKey_inj (a b : jstr) : ck a = ck b -> a = b.
Proof. unfold makeCompositeKey. intro H. do 2 apply app_inv_head in H. exact H. Qed.

Lemma ck_neq_lk (k : jstr) : k <> js "_lru" -> ck k <> lk.
Proof. intros Hk H. apply makeCompositeKey_inj in H. contradiction. Qed.

Lemma lru_value_get (s s' : store) :
  st_get lk s = st_get lk s' -> lru_value c s = lru_value c s'.
Proof. intro H. unfold lru_value. now rewrite !lookup_lk, H. Qed.

Lemma lru_record_get (s s' : store) :
  st_get lk s = st_get lk s' -> lru_record c s = lru_record c s'.
Proof. intro H. unfold lru_record. now rewrite (lru_value_get s s' H). Qed.

Lemma lru_record_value (s : store) (L : list jstr) :
  lru_record c s = Some L <-> lru_value c s = Ok (JArr (map JStr L)).
Proof.
  unfold lru_record. split.
  - destruct (lru_value c s) as [[]|]; try discriminate. intro H.
    now rewrite (strings_of_inv _ _ H).
  - intros ->. apply strings_of_map.
Qed.

Lemma lru_value_rec (s : store) (L : list jstr) :
  st_get lk s = Some (rec L) -> lru_value c s = Ok (JArr (map JStr L)).
Proof. intro H. unfold lru_value. rewrite lookup_lk, H. apply decode_rec. Qed.

Lemma lru_record_rec (s : store) (L : list jstr) :
  st_get lk s = Some (rec L) -> lru_record c s = Some L.
Proof. intro H. apply lru_record_value, lru_value_rec, H. Qed.

Lemma lru_record_set_lk (s : store) (L : list jstr) :
  lru_record c (st_set lk (rec L) s) = Some L.
Proof. apply lru_record_rec, st_get_set_eq. Qed.

Lemma lru_record_none (s : store) : st_get lk s = None -> lru_record c s = Some [].
Proof. intro H. unfold lru_record, lru_value. now rewrite lookup_lk, H. Qed.

Lemma lru_record_remove (x : jstr) (s : store) (L : list jstr) :
  lru_record c s = Some L ->
  exists L', lru_record c (st_remove x s) = Some L' /\ (x <> lk -> L' = L).
Proof.
  intro HL. destruct (jstr_dec x lk) as [->|Hne].
  - exists []. split; [apply lru_record_none, st_get_remove_eq|contradiction].
  - exists L. split; [|auto]. rewrite <- HL. apply lru_record_get.
    apply st_get_remove_neq. auto.
Qed.

Lemma lru_record_fold_remove (xs : list jstr) : forall (s : store) (L : list jstr),
  lru_record c s = Some L ->
  exists L', lru_record c (fold_left (fun s k => st_remove k s) xs s) = Some L'.
Proof.
  induction xs as [|x xs IH]; intros s L HL; simpl; [eauto|].
  destruct (lru_record_remove x s L HL) as [L' [H _]]. eauto.
Qed.

(** The record read by [getLRU]. *)
Lemma getLRU_eq (s : store) (cs : list call) :
  getLRU c (mkWorld s cs) = (lru_value c s, mkWorld s (cs ++ [CGetItem lk])).
Proof. unfold getLRU, bind, Backend.getItem, lift, log. reflexivity. Qed.

Lemma setLRU_eq (L : list jstr) (s : store) (cs : list call) :
  setLRU c (JArr (map JStr L)) (mkWorld s cs) =
  (Ok tt, mkWorld (st_set lk (rec L) s) (cs ++ [CSetItem lk (rec L)])).
Proof. unfold setLRU, Backend.setItem, log. cbn [store_of calls]. now rewrite write_lk. Qed.

Lemma removeFromLRU_resume_eq (k : jstr) (R : option bval) (L : list jstr)
    (s : store) (cs : list call) :
  decode_lru R = Ok (JArr (map JStr L)) ->
  removeFromLRU_resume c (JStr k) R (mkWorld s cs) =
  (Ok tt, mkWorld (st_set lk (rec (keep k L)) s) (cs ++ [CSetItem lk (rec (keep k L))])).
Proof.
  intro H. unfold removeFromLRU_resume, bind, lift. rewrite H. cbn [filter_out].
  rewrite filter_keep. apply setLRU_eq.
Qed.

Lemma addToLRU_resume_eq (k : jstr) (R : option bval) (L : list jstr)
    (s : store) (cs : list call) :
  decode_lru R = Ok (JArr (map JStr L)) ->
  addToLRU_resume c k R (mkWorld s cs) =
  (Ok tt, mkWorld (st_set lk (rec (L ++ [k])) s) (cs ++ [CSetItem lk (rec (L ++ [k]))])).
Proof.
  intro H. unfold addToLRU_resume, bind, lift. rewrite H. cbn [push].
  change [JStr k] with (map JStr [k]). rewrite <- map_app. apply setLRU_eq.
Qed.

(** On a record that is not an array, the update raises and writes nothing. *)
Lemma removeFromLRU_resume_err (key : jval) (R : option bval) (w : world) :
  (forall xs, decode_lru R <> Ok (JArr xs)) ->
  exists e, removeFromLRU_resume c key R w = (Err e, w).
Proof.
  intro H. unfold removeFromLRU_resume, bind, lift.
  destruct (decode_lru R) as [[]|e]; cbn [filter_out]; eauto.
  exfalso; eapply H; reflexivity.
Qed.

Lemma removeFromLRU_eq (k : jstr) (s : store) (cs : list call) (L : list jstr) :
  lru_record c s = Some L ->
  removeFromLRU c (JStr k) (mkWorld s cs) =
  (Ok tt, mkWorld (st_set lk (rec (keep k L)) s)
                  (cs ++ [CGetItem lk; CSetItem lk (rec (keep k L))])).
Proof.
  intro HL. apply lru_record_value in HL. unfold removeFromLRU.
  rewrite (bind_ok _ _ _ (mkWorld s (cs ++ [CGetItem lk])) (lookup lk s)) by reflexivity.
  rewrite (removeFromLRU_resume_eq k _ L) by exact HL. now rewrite <- app_assoc.
Qed.

Lemma addToLRU_eq (k : jstr) (s : store) (cs : list call) (L : list jstr) :
  lru_record c s = Some L ->
  addToLRU c k (mkWorld s cs) =
  (Ok tt, mkWorld (st_set lk (rec (L ++ [k])) s)
                  (cs ++ [CGetItem lk; CSetItem lk (rec (L ++ [k]))])).
Proof.
  intro HL. apply lru_record_value in HL. unfold addToLRU.
  rewrite (bind_ok _ _ _ (mkWorld s (cs ++ [CGetItem lk])) (lookup lk s)) by reflexivity.
  rewrite (addToLRU_resume_eq k _ L) by exact HL. now rewrite <- app_assoc.
Qed.

Lemma refreshLRU_eq (k : jstr) (s : store) (cs : list call) (L : list jstr) :
  lru_record c s = Some L ->
  refreshLRU c k (mkWorld s cs) =
  (Ok tt, mkWorld (st_set lk (rec (keep k L ++ [k])) s)
                  (cs ++ [CGetItem lk; CSetItem lk (rec (keep k L));
                          CGetItem lk; CSetItem lk (rec (keep k L ++ [k]))])).
Proof.
  intro HL. unfold refreshLRU.
  rewrite (bind_ok _ _ _ _ tt (removeFromLRU_eq k s cs L HL)).
  rewrite (addToLRU_eq _ _ _ (keep k L)) by apply lru_record_set_lk.
  now rewrite st_set_twice, <- app_assoc.
Qed.

Lemma refreshLRU_err (k : jstr) (s : store) (cs : list call) :
  (forall xs, lru_value c s <> Ok (JArr xs)) ->
  exists e, refreshLRU c k (mkWorld s cs) = (Err e, mkWorld s (cs ++ [CGetItem lk])).
Proof.
  intro H. unfold refreshLRU, removeFromLRU.
  destruct (removeFromLRU_resume_err (JStr k) (lookup lk s) (mkWorld s (cs ++ [CGetItem lk])) H)
    as [e He].
  exists e. apply bind_err. rewrite (bind_ok _ _ _ (mkWorld s (cs ++ [CGetItem lk])) (lookup lk s))
    by reflexivity. exact He.
Qed.

Lemma removeItem_eq (k : jstr) (s : store) (cs : list call) (L : list jstr) :
  lru_record c (st_remove (ck k) s) = Some L ->
  removeItem c (JStr k) (mkWorld s cs) =
  (Ok tt, mkWorld (st_set lk (rec (keep k L)) (st_remove (ck k) s))
                  (cs ++ [CRemoveItem (ck k); CGetItem lk; CSetItem lk (rec (keep k L))])).
Proof.
  intro H. unfold removeItem, bind at 1, lift. cbn [to_string].
  rewrite (bind_ok _ _ _ (mkWorld (st_remove (ck k) s) (cs ++ [CRemoveItem (ck k)])) tt)
    by reflexivity.
  rewrite (removeFromLRU_eq k _ _ L H). now rewrite <- app_assoc.
Qed.

(** The removals a batch starts without awaiting, each resuming from the
    same record. *)
Lemma settle_removes (xs : list jstr) (R : option bval) (L : list jstr) :
  decode_lru R = Ok (JArr (map JStr L)) ->
  forall s cs,
  mapM settle (map (fun k => removeFromLRU_resume c (JStr k) R) xs) (mkWorld s cs) =
  (Ok (map (fun _ => Ok tt) xs),
   mkWorld (fold_left (fun s k => st_set lk (rec (keep k L)) s) xs s)
           (cs ++ map (fun k => CSetItem lk (rec (keep k L))) xs)).
Proof.
  intro HR. induction xs as [|x xs IH]; intros s cs; cbn [mapM map].
  - now rewrite app_nil_r.
  - rewrite (bind_ok _ _ _ _ (Ok tt)) by (unfold settle; now rewrite (removeFromLRU_resume_eq x R L s cs HR)).
    rewrite (bind_ok _ _ _ _ _ (IH _ _)). unfold ret. now rewrite <- app_assoc.
Qed.

Lemma settle_adds (xs : list jstr) (R : option bval) (L : list jstr) :
  decode_lru R = Ok (JArr (map JStr L)) ->
  forall s cs,
  mapM settle (map (fun k => addToLRU_resume c k R) xs) (mkWorld s cs) =
  (Ok (map (fun _ => Ok tt) xs),
   mkWorld (fold_left (fun s k => st_set lk (rec (L ++ [k])) s) xs s)
           (cs ++ map (fun k => CSetItem lk (rec (L ++ [k]))) xs)).
Proof.
  intro HR. induction xs as [|x xs IH]; intros s cs; cbn [mapM map].
  - now rewrite app_nil_r.
  - rewrite (bind_ok _ _ _ _ (Ok tt)) by (unfold settle; now rewrite (addToLRU_resume_eq x R L s cs HR)).
    rewrite (bind_ok _ _ _ _ _ (IH _ _)). unfold ret. now rewrite <- app_assoc.
Qed.

End Facts.
End CacheFacts.
Module LockstepFacts.
Import StoreFacts JsonFacts CacheFacts.

Section Lockstep.
Variable c : Cache.

Local Abbreviation lk := (getLRUKey c).
Local Abbreviation ck := (makeCompositeKey c).
Local Abbreviation keep k := (filter (fun item => negb (jeqb item k))).

Lemma multiGet_snoc_eq (ks0 : list jstr) (kn : jstr) (s : store) (cs : list call)
    (L : list jstr) :
  lru_record c s = Some L ->
  multiGet c (ks0 ++ [kn]) (mkWorld s cs) =
  (Ok (map (fun k => (fromCompositeKey c (ck k), lookup (ck k) s)) (ks0 ++ [kn])),
   mkWorld (st_set lk (rec (keep kn L ++ [kn])) s)
     (cs ++ map (fun _ => CGetItem lk) (ks0 ++ [kn]) ++ [CMultiGet (map ck (ks0 ++ [kn]))]
         ++ map (fun k => CSetItem lk (rec (keep k L))) (ks0 ++ [kn])
         ++ map (fun _ => CGetItem lk) (ks0 ++ [kn])
         ++ map (fun k => CSetItem lk (rec (keep kn L ++ [k]))) (ks0 ++ [kn]))).
Proof.
  intro HL. apply lru_record_value in HL.
  set (ks := ks0 ++ [kn]).
  unfold multiGet.
  erewrite bind_ok; [cbv beta|apply mapM_reads].
  erewrite bind_ok; [cbv beta|reflexivity].
  erewrite bind_ok; [cbv beta|unfold detach; reflexivity].
  unfold log; cbn [store_of calls].
  rewrite combine_const, (map_map (fun x => (x, lookup lk s))). cbn [fst snd].
  rewrite (bind_ok _ _ _ _ _ (settle_removes c ks _ L HL s _)). cbv beta zeta.
  rewrite live_all, (bind_ok _ _ _ _ _ (mapM_reads ks lk _ _)). cbv beta.
  unfold ks. rewrite st_set_fold_snoc.
  rewrite lookup_lk, st_get_set_eq. cbn [option_map].
  rewrite combine_const, (map_map (fun x => (x, Some (BStr (rec (keep kn L)))))).
  cbn [fst snd].
  rewrite (settle_adds c (ks0 ++ [kn]) _ (keep kn L) (decode_rec _)). cbn [snd].
  unfold ret. rewrite st_set_fold_snoc, st_set_twice.
  rewrite !map_map. cbn [fst snd].
  f_equal. f_equal. rewrite <- !app_assoc. reflexivity.
Qed.

Lemma multiGet_nil (s : store) (cs : list call) :
  multiGet c [] (mkWorld s cs) = (Ok [], mkWorld s (cs ++ [CMultiGet []])).
Proof. reflexivity. Qed.



Lemma first_error_ok_app {A B} (xs : list A) (a : B) (r : list (exc B)) :
  first_error (map (fun _ => Ok a) xs ++ r) = first_error r.
Proof. induction xs; simpl; auto. Qed.

Lemma first_error_map_ok {A B} (xs : list A) (a : B) :
  first_error (map (fun _ => Ok a) xs) = None.
Proof. induction xs; simpl; auto. Qed.

(** The removals [enforceLimits] starts, up to their first [await]. *)
Lemma mapM_started (V : list jstr) : forall (s : store) (cs : list call),
  mapM (fun v => settle (k <- lift (to_string v);; Backend.removeItem (ck k))) (map JStr V)
       (mkWorld s cs) =
  (Ok (map (fun _ => Ok tt) (map JStr V)),
   mkWorld (fold_left (fun s k => st_remove k s) (map ck V) s)
           (cs ++ map (fun k => CRemoveItem (ck k)) V)).
Proof.
  induction V as [|k V IH]; intros s cs; cbn [mapM map fold_left].
  - now rewrite app_nil_r.
  - rewrite (bind_ok _ _ _ (mkWorld (st_remove (ck k) s) (cs ++ [CRemoveItem (ck k)])) (Ok tt))
      by reflexivity.
    rewrite (bind_ok _ _ _ _ _ (IH _ _)). unfold ret. now rewrite <- app_assoc.
Qed.

Lemma removeAll_eq (V : list jstr) (s : store) (cs : list call) (L : list jstr) :
  lru_record c (fold_left (fun s k => st_remove k s) (map ck V) s) = Some L ->
  removeAll c (map JStr V) (mkWorld s cs) =
  (Ok tt,
   mkWorld (fold_left (fun s k => st_set lk (rec (keep k L)) s) V
              (fold_left (fun s k => st_remove k s) (map ck V) s))
     (cs ++ map (fun k => CRemoveItem (ck k)) V ++ map (fun _ => CGetItem lk) V
         ++ map (fun k => CSetItem lk (rec (keep k L))) V)).
Proof.
  intro HL. apply lru_record_value in HL.
  set (s1 := fold_left (fun s k => st_remove k s) (map ck V) s) in *.
  unfold removeAll.
  rewrite (bind_ok _ _ _ _ _ (mapM_started V s cs)). cbv beta zeta. fold s1.
  rewrite live_all, (bind_ok _ _ _ _ _ (mapM_reads (map JStr V) lk _ _)). cbv beta.
  rewrite combine_const, !map_map. cbn [fst snd].
  rewrite (bind_ok _ _ _ _ _ (settle_removes c V _ L HL s1 _)). cbv beta.
  rewrite first_error_ok_app, first_error_map_ok. unfold ret.
  rewrite <- !app_assoc. reflexivity.
Qed.

Lemma enforceLimits_inactive :
  maxEntries (policy c) = None \/ maxEntries (policy c) = Some 0 ->
  enforceLimits c = ret tt.
Proof. unfold enforceLimits. now intros [-> | ->]. Qed.

Lemma metadata_writes_app (cs1 cs2 : list call) :
  metadata_writes c (cs1 ++ cs2) = (metadata_writes c cs1 + metadata_writes c cs2)%nat.
Proof. unfold metadata_writes. now rewrite filter_app, length_app. Qed.

Lemma metadata_writes_gets {A} (k : jstr) (xs : list A) :
  metadata_writes c (map (fun _ => CGetItem k) xs) = 0%nat.
Proof. induction xs; auto. Qed.

Lemma metadata_writes_removes (g : jstr -> jstr) (xs : list jstr) :
  metadata_writes c (map (fun k => CRemoveItem (g k)) xs) = 0%nat.
Proof. induction xs; auto. Qed.

Lemma metadata_writes_sets {A} (g : A -> jstr) (xs : list A) :
  metadata_writes c (map (fun x => CSetItem lk (g x)) xs) = length xs.
Proof.
  induction xs as [|x xs IH]; auto. unfold metadata_writes in *. cbn [map filter].
  rewrite jeqb_refl. cbn [length]. now rewrite IH.
Qed.

Lemma metadata_writes_set (v : jstr) : metadata_writes c [CSetItem lk v] = 1%nat.
Proof. unfold metadata_writes. cbn. now rewrite jeqb_refl. Qed.

Lemma metadata_writes_set_ck (k v : jstr) :
  k <> js "_lru" -> metadata_writes c [CSetItem (ck k) v] = 0%nat.
Proof.
  intro Hk. unfold metadata_writes. cbn.
  destruct (jeqb (ck k) lk) eqn:E; [|reflexivity].
  apply jeqb_eq in E. exfalso. exact (ck_neq_lk c k Hk E).
Qed.

Lemma metadata_writes_nil_calls (cl : call) :
  (forall k v, cl <> CSetItem k v) -> metadata_writes c [cl] = 0%nat.
Proof. intro H. destruct cl; try reflexivity. exfalso. eapply H; reflexivity. Qed.

Lemma enforceLimits_eq (m : Z) (s : store) (cs : list call) (L : list jstr) :
  maxEntries (policy c) = Some m -> m <> 0 -> lru_record c s = Some L ->
  let n := Z.to_nat (Z.max 0 (Z.of_nat (length L) - m)) in
  exists cs',
    enforceLimits c (mkWorld s cs) =
      (Ok tt, mkWorld (st_set lk (rec (skipn n L))
                        (fold_left (fun s k => st_remove k s) (map ck (firstn n L)) s))
                      (cs ++ cs')) /\
    metadata_writes c cs' = S (length (firstn n L)).
Proof.
  intros Hm Hm0 HL n.
  pose proof HL as HV. apply lru_record_value in HV.
  destruct (lru_record_fold_remove c (map ck (firstn n L)) s L HL) as [L1 HL1].
  assert (E : enforceLimits c =
              (lru <- getLRU c;;
               split <- lift (split_victims m lru);;
               removeAll c (fst split);;
               setLRU c (snd split))).
  { unfold enforceLimits. rewrite Hm. destruct m; [contradiction|reflexivity|reflexivity]. }
  rewrite E. clear E.
  rewrite (bind_ok _ _ _ _ _ (eq_trans (getLRU_eq c s cs) (f_equal (fun r => (r, _)) HV))). cbv beta.
  erewrite bind_ok; [cbv beta|reflexivity]. cbn [fst snd].
  rewrite length_map, firstn_map, skipn_map. fold n.
  rewrite (bind_ok _ _ _ _ _ (removeAll_eq (firstn n L) s _ L1 HL1)). cbv beta.
  rewrite setLRU_eq, st_set_fold_last.
  eexists. split; [rewrite <- !app_assoc; reflexivity|].
  rewrite !metadata_writes_app, metadata_writes_gets, metadata_writes_removes,
    metadata_writes_sets, metadata_writes_set.
  cbn [metadata_writes filter length]. lia.
Qed.

End Lockstep.
End LockstepFacts.
(** ** One operation at a time: equations of [setItem], [getItem] and
    [removeItem], and the order list they leave *)

Module OpFacts.
Import StoreFacts JsonFacts CacheFacts LockstepFacts.

(** The error an update of the order list raises on the value [getLRU]
    returned, if any. *)
Definition refresh_error (r : exc jval) : option js_error :=
  match r with
  | Err e => Some e
  | Ok (JArr _) => None
  | Ok _ => Some TypeError
  end.

Section Ops.
Variable c : Cache.

Local Abbreviation lk := (getLRUKey c).
Local Abbreviation ck := (makeCompositeKey c).
Local Abbreviation keep k := (filter (fun item => negb (jeqb item k))).

(** How many keys [enforceLimits] evicts from an order list [L]. *)
Definition victims_count (L : list jstr) : nat :=
  match maxEntries (policy c) with
  | Some m => if Z.eqb m 0 then 0%nat else Z.to_nat (Z.max 0 (Z.of_nat (length L) - m))
  | None => 0%nat
  end.

(** The store [enforceLimits] leaves, from a store whose record holds [L]. *)
Definition enforced (L : list jstr) (s : store) : store :=
  match maxEntries (policy c) with
  | Some m =>
      if Z.eqb m 0 then s
      else st_set lk (rec (skipn (victims_count L) L))
             (fold_left (fun s k => st_remove k s) (map ck (firstn (victims_count L) L)) s)
  | None => s
  end.

(** The writes of the LRU record [enforceLimits] does on an order list [L]. *)
Definition enforce_writes (L : list jstr) : nat :=
  match maxEntries (policy c) with
  | Some m => if Z.eqb m 0 then 0%nat else S (length (firstn (victims_count L) L))
  | None => 0%nat
  end.

Lemma enforceLimits_run (s : store) (cs : list call) (L : list jstr) :
  lru_record c s = Some L ->
  exists cs', enforceLimits c (mkWorld s cs) = (Ok tt, mkWorld (enforced L s) (cs ++ cs')) /\
              metadata_writes c cs' = enforce_writes L.
Proof.
  intro HL. unfold enforced, enforce_writes, victims_count.
  destruct (maxEntries (policy c)) as [m|] eqn:Hm.
  - destruct (Z.eqb_spec m 0) as [->|Hm0].
    + rewrite enforceLimits_inactive by auto. exists []. now rewrite app_nil_r.
    + exact (enforceLimits_eq c m s cs L Hm Hm0 HL).
  - rewrite enforceLimits_inactive by auto. exists []. now rewrite app_nil_r.
Qed.

Lemma enforced_record (L : list jstr) (s : store) :
  lru_record c s = Some L -> lru_record c (enforced L s) = Some (skipn (victims_count L) L).
Proof.
  intro HL. unfold enforced, victims_count.
  destruct (maxEntries (policy c)) as [m|]; [destruct (Z.eqb m 0)|];
    try exact HL; apply lru_record_set_lk.
Qed.

Lemma enforced_frame (L : list jstr) (s : store) (k : jstr) :
  k <> lk -> (forall x, In x (firstn (victims_count L) L) -> k <> ck x) ->
  st_get k (enforced L s) = st_get k s.
Proof.
  intros Hk Hx. unfold enforced.
  destruct (maxEntries (policy c)) as [m|]; [destruct (Z.eqb m 0)|]; try reflexivity.
  rewrite st_get_set_neq by exact Hk. rewrite st_get_fold_remove.
  destruct (existsb (jeqb k) _) eqn:E; [|reflexivity].
  apply existsb_exists in E. destruct E as [y [Hy E]]. apply jeqb_eq in E. subst y.
  apply in_map_iff in Hy. destruct Hy as [x [Ex Hin]].
  exfalso. exact (Hx x Hin (eq_sym Ex)).
Qed.

Lemma write_ck_step (k v : jstr) (s : store) (cs : list call) :
  Backend.setItem (ck k) v (mkWorld s cs) =
  (Ok tt, mkWorld (st_set (ck k) v s) (cs ++ [CSetItem (ck k) v])).
Proof. unfold Backend.setItem, log. cbn [store_of calls]. now rewrite write_ck. Qed.

Lemma setItem_eq (k v : jstr) (s : store) (cs : list call) (L : list jstr) :
  k <> js "_lru" -> lru_record c s = Some L ->
  exists cs',
    setItem c k v (mkWorld s cs) =
      (Ok tt, mkWorld (enforced (keep k L ++ [k])
                         (st_set lk (rec (keep k L ++ [k])) (st_set (ck k) v s)))
                      (cs ++ cs')) /\
    metadata_writes c cs' = (2 + enforce_writes (keep k L ++ [k]))%nat.
Proof.
  intros Hk HL. pose proof (ck_neq_lk c k Hk) as Hne.
  assert (HL1 : lru_record c (st_set (ck k) v s) = Some L).
  { rewrite <- HL. apply lru_record_get. apply st_get_set_neq. intro E. now apply Hne. }
  unfold setItem. rewrite (bind_ok _ _ _ _ _ (write_ck_step k v s cs)).
  rewrite (bind_ok _ _ _ _ _ (refreshLRU_eq c k _ _ L HL1)).
  destruct (enforceLimits_run (st_set lk (rec (keep k L ++ [k])) (st_set (ck k) v s))
              ((cs ++ [CSetItem (ck k) v]) ++
               [CGetItem lk; CSetItem lk (rec (keep k L)); CGetItem lk;
                CSetItem lk (rec (keep k L ++ [k]))]) _ (lru_record_set_lk c _ _))
    as [cs' [Hrun Hcnt]].
  rewrite Hrun. eexists. split; [now rewrite <- !app_assoc|].
  rewrite !metadata_writes_app, metadata_writes_set_ck by exact Hk.
  rewrite Hcnt. unfold metadata_writes. cbn. rewrite jeqb_refl. reflexivity.
Qed.

Lemma removeFromLRU_resume_fails (key : jval) (R : option bval) (e : js_error) (w : world) :
  refresh_error (decode_lru R) = Some e -> removeFromLRU_resume c key R w = (Err e, w).
Proof.
  unfold removeFromLRU_resume, bind, lift, refresh_error.
  destruct (decode_lru R) as [[]|e']; cbn [filter_out]; congruence.
Qed.

Lemma refreshLRU_fails (k : jstr) (s : store) (cs : list call) (e : js_error) :
  refresh_error (lru_value c s) = Some e ->
  refreshLRU c k (mkWorld s cs) = (Err e, mkWorld s (cs ++ [CGetItem lk])).
Proof.
  intro H. unfold refreshLRU, removeFromLRU. apply bind_err.
  rewrite (bind_ok _ _ _ (mkWorld s (cs ++ [CGetItem lk])) (lookup lk s)) by reflexivity.
  now apply removeFromLRU_resume_fails.
Qed.

Lemma setItem_fails (k v : jstr) (s : store) (cs : list call) (e : js_error) :
  k <> js "_lru" -> refresh_error (lru_value c s) = Some e ->
  setItem c k v (mkWorld s cs) =
    (Err e, mkWorld (st_set (ck k) v s) (cs ++ [CSetItem (ck k) v; CGetItem lk])).
Proof.
  intros Hk H. pose proof (ck_neq_lk c k Hk) as Hne.
  unfold setItem. rewrite (bind_ok _ _ _ _ _ (write_ck_step k v s cs)).
  apply bind_err. rewrite (refreshLRU_fails k _ _ e); [now rewrite <- app_assoc|].
  rewrite <- H. f_equal. apply lru_value_get, st_get_set_neq. intro E. now apply Hne.
Qed.

Lemma removeItem_fails (k : jstr) (s : store) (cs : list call) (e : js_error) :
  refresh_error (lru_value c (st_remove (ck k) s)) = Some e ->
  removeItem c (JStr k) (mkWorld s cs) =
    (Err e, mkWorld (st_remove (ck k) s) (cs ++ [CRemoveItem (ck k); CGetItem lk])).
Proof.
  intro H. unfold removeItem, bind at 1, lift. cbn [to_string].
  rewrite (bind_ok _ _ _ (mkWorld (st_remove (ck k) s) (cs ++ [CRemoveItem (ck k)])) tt)
    by reflexivity.
  unfold removeFromLRU.
  rewrite (bind_ok _ _ _ (mkWorld (st_remove (ck k) s) ((cs ++ [CRemoveItem (ck k)]) ++ [CGetItem lk]))
             (lookup lk (st_remove (ck k) s))) by reflexivity.
  rewrite (removeFromLRU_resume_fails _ _ e) by exact H. now rewrite <- app_assoc.
Qed.

Lemma getItem_absent (k : jstr) (s : store) (cs : list call) :
  st_get (ck k) s = None \/ st_get (ck k) s = Some [] ->
  getItem c k (mkWorld s cs) = (Ok None, mkWorld s (cs ++ [CGetItem (ck k)])).
Proof.
  intro H. unfold getItem, peek, bind, Backend.getItem, log. cbn [store_of calls].
  rewrite lookup_ck. destruct H as [-> | ->]; reflexivity.
Qed.

Lemma getItem_found (k v : jstr) (s : store) (cs : list call) :
  st_get (ck k) s = Some v -> v <> [] ->
  getItem c k (mkWorld s cs) =
    (Ok (Some (BStr v)), snd (refreshLRU c k (mkWorld s (cs ++ [CGetItem (ck k)])))).
Proof.
  intros H Hv. unfold getItem, peek, bind at 1, Backend.getItem, log. cbn [store_of calls].
  rewrite lookup_ck, H. destruct v as [|u v]; [contradiction|reflexivity].
Qed.

Lemma getItem_found_eq (k v : jstr) (s : store) (cs : list call) (L : list jstr) :
  st_get (ck k) s = Some v -> v <> [] -> lru_record c s = Some L ->
  getItem c k (mkWorld s cs) =
    (Ok (Some (BStr v)),
     mkWorld (st_set lk (rec (keep k L ++ [k])) s)
       (cs ++ [CGetItem (ck k); CGetItem lk; CSetItem lk (rec (keep k L));
               CGetItem lk; CSetItem lk (rec (keep k L ++ [k]))])).
Proof.
  intros H Hv HL. rewrite (getItem_found k v s cs H Hv), (refreshLRU_eq c k s _ L HL).
  cbn [snd]. now rewrite <- app_assoc.
Qed.

(** [enforceLimits] with [maxEntries >= 1] never evicts the key just
    appended at the tail. *)
Lemma victims_before_key (k : jstr) (L : list jstr) :
  (forall m, maxEntries (policy c) = Some m -> m = 0 \/ 1 <= m) ->
  ~ In k (firstn (victims_count (keep k L ++ [k])) (keep k L ++ [k])).
Proof.
  intros Hpol Hin.
  assert (Hn : (victims_count (keep k L ++ [k]) <= length (keep k L))%nat).
  { unfold victims_count. destruct (maxEntries (policy c)) as [m|] eqn:Hm; [|lia].
    destruct (Z.eqb_spec m 0); [lia|].
    destruct (Hpol m eq_refl) as [|Hm1]; [contradiction|].
    rewrite length_app. cbn [length]. lia. }
  rewrite firstn_app in Hin. replace (_ - length (keep k L))%nat with 0%nat in Hin by lia.
  rewrite app_nil_r in Hin.
  assert (H2 : In k (keep k L)).
  { rewrite <- (firstn_skipn (victims_count (keep k L ++ [k])) (keep k L)).
    apply in_or_app. now left. }
  apply filter_In in H2. destruct H2 as [_ H2]. now rewrite jeqb_refl in H2.
Qed.


Lemma refresh_error_none (r : exc jval) :
  refresh_error r = None -> exists xs, r = Ok (JArr xs).
Proof. destruct r as [[]|]; cbn; try discriminate; eauto. Qed.

(** [setItem(key, v)] stores [v], and what follows in the call ([refreshLRU],
    [enforceLimits]) never deletes it when [maxEntries] is unset, 0 or at
    least 1 and the record holds no item other than strings. *)
Lemma setItem_keeps_value (k v : jstr) (w : world) :
  k <> js "_lru" ->
  (forall m, maxEntries (policy c) = Some m -> m = 0 \/ 1 <= m) ->
  record_strings_only c (store_of w) = true ->
  st_get (ck k) (store_of (snd (setItem c k v w))) = Some v.
Proof.
  intros Hk Hpol Hstr. destruct w as [s cs]. cbn [store_of] in *.
  pose proof (ck_neq_lk c k Hk) as Hne.
  destruct (refresh_error (lru_value c s)) as [e|] eqn:HE.
  - rewrite (setItem_fails k v s cs e Hk HE). apply st_get_set_eq.
  - destruct (refresh_error_none _ HE) as [xs HV].
    unfold record_strings_only in Hstr. rewrite HV in Hstr.
    destruct (strings_of_all xs Hstr) as [L HLs].
    assert (HL : lru_record c s = Some L) by (unfold lru_record; now rewrite HV).
    destruct (setItem_eq k v s cs L Hk HL) as [cs' [Hrun _]].
    rewrite Hrun. cbn [snd store_of].
    rewrite enforced_frame.
    + rewrite st_get_set_neq by exact Hne. apply st_get_set_eq.
    + exact Hne.
    + intros x Hx E. apply makeCompositeKey_inj in E. subst x.
      exact (victims_before_key k L Hpol Hx).
Qed.

End Ops.
End OpFacts.

(** ** Keys of the store, prefixes, and [clearAll] *)

Module KeyFacts.
Import StoreFacts CacheFacts.

(** A composite key determines its namespace and its key when neither
    namespace contains [":"]. *)
Lemma composite_split (n1 n2 k1 k2 : jstr) :
  ~ In 58%N n1 -> ~ In 58%N n2 -> n1 ++ 58%N :: k1 = n2 ++ 58%N :: k2 -> n1 = n2 /\ k1 = k2.
Proof.
  revert n2. induction n1 as [|a n1 IH]; intros [|b n2] H1 H2 E; simpl in *.
  - now injection E.
  - injection E as <- _. exfalso. apply H2. now left.
  - injection E as -> _. exfalso. apply H1. now left.
  - injection E as <- E. destruct (IH n2) as [-> ->]; auto.
Qed.

Lemma from_ck (c : Cache) (k : jstr) : fromCompositeKey c (makeCompositeKey c k) = k.
Proof.
  unfold fromCompositeKey, makeCompositeKey. generalize (namespace c) as n.
  induction n as [|u n IH]; simpl; auto.
Qed.

Lemma keys_st_set (k v x : jstr) (s : store) :
  In x (map fst (st_set k v s)) -> x = k \/ In x (map fst s).
Proof.
  induction s as [|[k1 v1] t IH]; simpl; [intros [E|[]]; auto|].
  destruct (jeqb k k1) eqn:E; simpl.
  - apply jeqb_eq in E; subst k1. intros [H|H]; auto.
  - intros [H|H]; auto. destruct (IH H); auto.
Qed.

Lemma keys_st_remove (k x : jstr) (s : store) :
  In x (map fst (st_remove k s)) -> In x (map fst s) /\ x <> k.
Proof.
  unfold st_remove. rewrite in_map_iff. intros [[k1 v1] [<- H]].
  apply filter_In in H. destruct H as [H E]. simpl in E. split.
  - apply in_map_iff. now exists (k1, v1).
  - simpl. intro E'. subst k. now rewrite jeqb_refl in E.
Qed.

Lemma keys_fold_remove (ks : list jstr) (x : jstr) : forall s,
  In x (map fst (fold_left (fun s k => st_remove k s) ks s)) ->
  In x (map fst s) /\ ~ In x ks.
Proof.
  induction ks as [|k ks IH]; intros s H; simpl in *; [auto|].
  destruct (IH _ H) as [H1 H2]. apply keys_st_remove in H1. destruct H1 as [H1 H3].
  split; [exact H1|]. intros [E|E]; [congruence|contradiction].
Qed.

Lemma st_get_in (k v : jstr) (s : store) : st_get k s = Some v -> In k (map fst s).
Proof.
  induction s as [|[k1 v1] t IH]; simpl; [discriminate|].
  destruct (jeqb k k1) eqn:E; [apply jeqb_eq in E; auto|auto].
Qed.

Lemma nodup_keys_set (k v : jstr) (s : store) :
  NoDup (map fst s) -> NoDup (map fst (st_set k v s)).
Proof.
  induction s as [|[k1 v1] t IH]; simpl; intro H; [constructor; [intros []|constructor]|].
  inversion H as [|? ? Hn Ht]; subst.
  destruct (jeqb k k1) eqn:E; simpl.
  - apply jeqb_eq in E; subst k1. now constructor.
  - constructor; [|now apply IH].
    intro Hin. apply keys_st_set in Hin. destruct Hin as [->|Hin]; [|contradiction].
    now rewrite jeqb_refl in E.
Qed.

Lemma nodup_keys_remove (k : jstr) (s : store) :
  NoDup (map fst s) -> NoDup (map fst (st_remove k s)).
Proof.
  induction s as [|[k1 v1] t IH]; simpl; intro H; [constructor|].
  inversion H as [|? ? Hn Ht]; subst. unfold st_remove in *. simpl.
  destruct (negb (jeqb k k1)); simpl; [|now apply IH].
  constructor; [|now apply IH].
  intro Hin. apply (keys_st_remove k) in Hin. tauto.
Qed.

Lemma insert_index_perm {A} (i : Z) (x : A) (l : list (Z * A)) :
  Permutation (map snd (insert_index i x l)) (x :: map snd l).
Proof.
  induction l as [|[j y] l IH]; simpl; [auto|].
  destruct (i <? j); simpl; [auto|].
  eapply perm_trans; [apply perm_skip, IH|]. apply perm_swap.
Qed.

Lemma filter_split_perm {A} (f g : A -> bool) (l : list A) :
  (forall x, g x = negb (f x)) -> Permutation (filter f l ++ filter g l) l.
Proof.
  intro H. induction l as [|x l IH]; simpl; [auto|]. rewrite H.
  destruct (f x); simpl; [now apply perm_skip|].
  eapply perm_trans; [apply Permutation_sym, Permutation_middle|]. now apply perm_skip.
Qed.

(** [Object.keys] and [for..in] list each own property once: the order
    they use is a permutation of the creation order. *)
Lemma own_order_perm {A} (key : A -> jstr) (xs : list A) : Permutation (own_order key xs) xs.
Proof.
  set (isidx := fun x => match array_index (key x) with Some _ => true | None => false end).
  assert (Hf : forall acc,
    Permutation (map snd (fold_left (fun acc x => match array_index (key x) with
                                                  | Some i => insert_index i x acc
                                                  | None => acc
                                                  end) xs acc))
                (map snd acc ++ filter isidx xs)).
  { induction xs as [|x xs IH]; intro acc; simpl; [now rewrite app_nil_r|].
    destruct (array_index (key x)) eqn:E.
    - assert (Hx : isidx x = true) by (unfold isidx; now rewrite E). rewrite Hx.
      eapply perm_trans; [apply IH|]. simpl.
      eapply perm_trans; [apply Permutation_app_tail, insert_index_perm|].
      simpl. apply Permutation_middle.
    - assert (Hx : isidx x = false) by (unfold isidx; now rewrite E). rewrite Hx.
      apply IH. }
  unfold own_order. eapply perm_trans; [apply Permutation_app_tail, Hf|]. simpl.
  apply filter_split_perm. intro x. unfold isidx. now destruct (array_index (key x)).
Qed.

Lemma startsWith_app (p r : jstr) : startsWith (p ++ r) p = true.
Proof. induction p as [|a p IH]; simpl; [destruct r; reflexivity|]. now rewrite N.eqb_refl. Qed.

(** [key.substr(0, ns.length) === ns] is [key.startsWith(ns)]. *)
Lemma substr_prefix (p k : jstr) : jeqb (firstn (length p) k) p = startsWith k p.
Proof.
  revert k. induction p as [|a p IH]; intros [|b k]; simpl; auto.
  rewrite IH, N.eqb_sym. reflexivity.
Qed.

Lemma filter_none {A} (f : A -> bool) (l : list A) :
  (forall x, In x l -> f x = false) -> filter f l = [].
Proof.
  induction l as [|x l IH]; simpl; intro H; [reflexivity|].
  rewrite H by now left. apply IH. intros y Hy. apply H. now right.
Qed.

Section ClearAll.
Variable c : Cache.

(** The store [clearAll] leaves. *)
Definition cleared (s : store) : store :=
  st_set (getLRUKey c) (rec [])
    (fold_left (fun s k => st_remove k s)
       (filter (fun k => startsWith k (namespace c)) (own_order (fun k => k) (map fst s))) s).

Lemma clearAll_eq (s : store) (cs : list call) :
  exists cs', clearAll c (mkWorld s cs) = (Ok tt, mkWorld (cleared s) cs').
Proof.
  eexists. unfold clearAll, bind, Backend.getAllKeys, Backend.multiRemove, setLRU,
    Backend.setItem, log, cleared. cbn [store_of calls].
  rewrite (filter_ext _ _ (fun k => substr_prefix (namespace c) k)).
  rewrite write_lk. reflexivity.
Qed.

Lemma lk_prefix : startsWith (getLRUKey c) (namespace c) = true.
Proof. apply startsWith_app. Qed.

End ClearAll.
End KeyFacts.
(** ** Which backend keys an operation may change *)

Module FrameFacts.
Import StoreFacts CacheFacts KeyFacts.

(** [frames P m]: running [m] leaves the value of every backend key
    outside [P] as it was, whether [m] completes or raises. *)
Definition frames {A} (P : jstr -> Prop) (m : M A) : Prop :=
  forall w k, ~ P k -> st_get k (store_of (snd (m w))) = st_get k (store_of w).

Section Frames.
Variable P : jstr -> Prop.

Lemma frames_bind {A B} (m : M A) (f : A -> M B) :
  frames P m -> (forall a, frames P (f a)) -> frames P (bind m f).
Proof.
  intros Hm Hf w k Hk. specialize (Hm w k Hk). unfold bind.
  destruct (m w) as [[a|e] w'] eqn:E; simpl in *; [|exact Hm].
  rewrite Hf by exact Hk. exact Hm.
Qed.

Lemma frames_ret {A} (a : A) : frames P (ret a).
Proof. intros w k _. reflexivity. Qed.

Lemma frames_throw {A} (e : js_error) : frames P (@throw A e).
Proof. intros w k _. reflexivity. Qed.

Lemma frames_lift {A} (r : exc A) : frames P (lift r).
Proof. intros w k _. reflexivity. Qed.

Lemma frames_detach {A} (m : M A) : frames P m -> frames P (detach m).
Proof. intros Hm w k Hk. exact (Hm w k Hk). Qed.

Lemma frames_settle {A} (m : M A) : frames P m -> frames P (settle m).
Proof.
  intros Hm w k Hk. specialize (Hm w k Hk). unfold settle.
  destruct (m w) as [r w']. exact Hm.
Qed.

Lemma frames_mapM {A B} (f : A -> M B) (xs : list A) :
  (forall x, In x xs -> frames P (f x)) -> frames P (mapM f xs).
Proof.
  induction xs as [|x xs IH]; intro Hf; simpl; [apply frames_ret|].
  apply frames_bind; [apply Hf; now left|intro].
  apply frames_bind; [apply IH; intros; apply Hf; now right|intro; apply frames_ret].
Qed.

Lemma frames_settle_map {A B} (g : A -> M B) (xs : list A) :
  (forall x, frames P (g x)) -> frames P (mapM settle (map g xs)).
Proof.
  intro Hg. apply frames_mapM. intros m Hm. apply in_map_iff in Hm.
  destruct Hm as [x [<- _]]. apply frames_settle, Hg.
Qed.

Lemma frames_getItem (k : jstr) : frames P (Backend.getItem k).
Proof. intros w k' _. reflexivity. Qed.

Lemma frames_getAllKeys : frames P Backend.getAllKeys.
Proof. intros w k' _. reflexivity. Qed.

Lemma frames_multiGet (ks : list jstr) : frames P (Backend.multiGet ks).
Proof. intros w k' _. reflexivity. Qed.

Lemma frames_setItem (k v : jstr) : P k -> frames P (Backend.setItem k v).
Proof.
  intros Hk w k' Hk'. cbn [Backend.setItem snd log store_of]. unfold st_write.
  destruct (jeqb k (js "__proto__")); [reflexivity|].
  apply st_get_set_neq. intros ->. contradiction.
Qed.

Lemma frames_removeItem (k : jstr) : P k -> frames P (Backend.removeItem k).
Proof. intros Hk w k' Hk'. apply st_get_remove_neq. intros ->. contradiction. Qed.

Lemma frames_multiRemove (ks : list jstr) :
  (forall k, In k ks -> P k) -> frames P (Backend.multiRemove ks).
Proof.
  intros Hks w k' Hk'. cbn [snd Backend.multiRemove log store_of].
  rewrite st_get_fold_remove.
  destruct (existsb (jeqb k') ks) eqn:E; [|reflexivity].
  apply existsb_exists in E. destruct E as [x [Hx E]]. apply jeqb_eq in E. subst x.
  exfalso. exact (Hk' (Hks k' Hx)).
Qed.

Variable c : Cache.
Hypothesis Hlk : P (getLRUKey c).

Lemma frames_getLRU : frames P (getLRU c).
Proof. apply frames_bind; [apply frames_getItem|intro; apply frames_lift]. Qed.

Lemma frames_setLRU (lru : jval) : frames P (setLRU c lru).
Proof. apply frames_setItem, Hlk. Qed.

Lemma frames_removeFromLRU_resume (key : jval) (R : option bval) :
  frames P (removeFromLRU_resume c key R).
Proof.
  apply frames_bind; [apply frames_lift|intro].
  apply frames_bind; [apply frames_lift|intro; apply frames_setLRU].
Qed.

Lemma frames_addToLRU_resume (key : jstr) (R : option bval) :
  frames P (addToLRU_resume c key R).
Proof.
  apply frames_bind; [apply frames_lift|intro].
  apply frames_bind; [apply frames_lift|intro; apply frames_setLRU].
Qed.

Lemma frames_removeFromLRU (key : jval) : frames P (removeFromLRU c key).
Proof. apply frames_bind; [apply frames_getItem|intro; apply frames_removeFromLRU_resume]. Qed.

Lemma frames_addToLRU (key : jstr) : frames P (addToLRU c key).
Proof. apply frames_bind; [apply frames_getItem|intro; apply frames_addToLRU_resume]. Qed.

Lemma frames_refreshLRU (key : jstr) : frames P (refreshLRU c key).
Proof. apply frames_bind; [apply frames_removeFromLRU|intro; apply frames_addToLRU]. Qed.

Lemma frames_getItemC (k : jstr) : frames P (getItem c k).
Proof.
  apply frames_bind; [apply frames_getItem|].
  intros [[[|u v]|name]|]; try apply frames_ret;
    (apply frames_bind; [apply frames_detach, frames_refreshLRU|intro; apply frames_ret]).
Qed.

Lemma frames_peekC (k : jstr) : frames P (peek c k).
Proof. apply frames_getItem. Qed.

Lemma frames_multiGetC (ks : list jstr) : frames P (multiGet c ks).
Proof.
  unfold multiGet.
  apply frames_bind; [apply frames_mapM; intros; apply frames_getItem|intro reads].
  apply frames_bind; [apply frames_multiGet|intro results].
  apply frames_bind; [apply frames_detach|intro; apply frames_ret].
  apply frames_bind;
    [apply frames_settle_map; intro; apply frames_removeFromLRU_resume|intro removed].
  cbv zeta.
  apply frames_bind; [apply frames_mapM; intros; apply frames_getItem|intro reads'].
  apply frames_settle_map. intro. apply frames_addToLRU_resume.
Qed.

Lemma frames_getAllKeysC : frames P (getAllKeys c).
Proof. apply frames_bind; [apply frames_getAllKeys|intro; apply frames_ret]. Qed.

Lemma frames_getAllC : frames P (getAll c).
Proof. apply frames_bind; [apply frames_getAllKeysC|intro; apply frames_multiGetC]. Qed.

Hypothesis Hns : forall x, P (makeCompositeKey c x).

Lemma frames_removeItemC (key : jval) : frames P (removeItem c key).
Proof.
  apply frames_bind; [apply frames_lift|intro].
  apply frames_bind; [apply frames_removeItem, Hns|intro; apply frames_removeFromLRU].
Qed.

Lemma frames_removeAll (victims : list jval) : frames P (removeAll c victims).
Proof.
  unfold removeAll.
  apply frames_bind; [apply frames_mapM; intros v _; apply frames_settle|intro started].
  { apply frames_bind; [apply frames_lift|intro; apply frames_removeItem, Hns]. }
  cbv zeta.
  apply frames_bind; [apply frames_mapM; intros; apply frames_getItem|intro reads].
  apply frames_bind;
    [apply frames_settle_map; intro; apply frames_removeFromLRU_resume|intro finished].
  destruct (first_error _); [apply frames_throw|apply frames_ret].
Qed.

Lemma frames_enforceLimits : frames P (enforceLimits c).
Proof.
  unfold enforceLimits. destruct (maxEntries (policy c)) as [[|m|m]|];
    try apply frames_ret;
    (apply frames_bind; [apply frames_getLRU|intro lru];
     apply frames_bind; [apply frames_lift|intro split];
     apply frames_bind; [apply frames_removeAll|intro; apply frames_setLRU]).
Qed.

Lemma frames_setItemC (k v : jstr) : frames P (setItem c k v).
Proof.
  apply frames_bind; [apply frames_setItem, Hns|intro].
  apply frames_bind; [apply frames_refreshLRU|intro; apply frames_enforceLimits].
Qed.

Lemma frames_multiRemoveC (ks : list jstr) : frames P (multiRemove c ks).
Proof.
  unfold multiRemove.
  apply frames_bind; [apply frames_mapM; intros; apply frames_getItem|intro reads].
  apply frames_bind; [|intro; apply frames_detach, frames_settle_map; intro;
                       apply frames_removeFromLRU_resume].
  apply frames_multiRemove. intros k Hk. apply in_map_iff in Hk.
  destruct Hk as [x [<- _]]. apply Hns.
Qed.

End Frames.

Lemma frames_run_op (P : jstr -> Prop) (c : Cache) (o : op) :
  (forall x, P (makeCompositeKey c x)) -> o <> OpClearAll -> frames P (run_op c o).
Proof.
  intros Hns Ho. assert (Hlk : P (getLRUKey c)) by apply Hns.
  destruct o; simpl; try (exfalso; now apply Ho);
    try (apply frames_bind; [|intro; apply frames_ret]).
  - apply frames_setItemC; auto.
  - apply frames_getItemC; auto.
  - apply frames_peekC.
  - apply frames_removeItemC; auto.
  - apply frames_multiGetC; auto.
  - apply frames_multiRemoveC; auto.
  - apply frames_getAllKeysC.
  - apply frames_getAllC; auto.
  - apply frames_enforceLimits; auto.
Qed.

End FrameFacts.

(** ** The order list stays free of duplicates *)

Module OrderFacts.
Import StoreFacts CacheFacts LockstepFacts OpFacts KeyFacts.





Section Order.
Variable c : Cache.

Local Abbreviation lk := (getLRUKey c).
Local Abbreviation ck := (makeCompositeKey c).

















End Order.
End OrderFacts.

(* ------------------------------------------------------------------ *)
(** ** Reading a record text; counting record writes *)

Module ClaimFacts.
Import StoreFacts CacheFacts LockstepFacts OpFacts.

Lemma parse_empty : Json.parse [] = None.
Proof. reflexivity. Qed.

Lemma lru_value_text (c : Cache) (s : store) (t : jstr) :
  st_get (getLRUKey c) s = Some t -> lru_value c s = decode_lru (Some (BStr t)).
Proof. intro H. unfold lru_value. now rewrite lookup_lk, H. Qed.

Lemma decode_syntax (t : jstr) :
  t <> [] -> Json.parse t = None -> decode_lru (Some (BStr t)) = Err SyntaxError.
Proof.
  intros Ht Hp. destruct t as [|u t]; [contradiction|].
  cbv beta iota delta [decode_lru]. now rewrite Hp.
Qed.

Lemma decode_parsed (t : jstr) (j : jval) :
  Json.parse t = Some j -> decode_lru (Some (BStr t)) = Ok j.
Proof.
  intro Hp. destruct t as [|u t].
  - rewrite parse_empty in Hp. discriminate.
  - cbv beta iota delta [decode_lru]. now rewrite Hp.
Qed.

Lemma decode_not_array (t : jstr) (j : jval) :
  Json.parse t = Some j -> (forall xs, j <> JArr xs) ->
  refresh_error (decode_lru (Some (BStr t))) = Some TypeError.
Proof.
  intros Hp Hj. rewrite (decode_parsed t j Hp).
  destruct j; try reflexivity. exfalso. eapply Hj. reflexivity.
Qed.

Lemma removeItem_ok (c : Cache) (k : jstr) (s : store) (cs : list call) (r : list jval) :
  lru_value c (st_remove (makeCompositeKey c k) s) = Ok (JArr r) ->
  fst (removeItem c (JStr k) (mkWorld s cs)) = Ok tt.
Proof.
  intro Hr.
  unfold removeItem, removeFromLRU, removeFromLRU_resume, bind, lift,
    Backend.removeItem, Backend.getItem, log.
  cbn [to_string store_of calls].
  change (decode_lru (lookup (getLRUKey c) (st_remove (makeCompositeKey c k) s)))
    with (lru_value c (st_remove (makeCompositeKey c k) s)).
  rewrite Hr. reflexivity.
Qed.

Lemma multiGet_writes (c : Cache) (ks : list jstr) (s : store) (cs : list call)
    (L : list jstr) :
  lru_record c s = Some L ->
  exists cs', calls (snd (multiGet c ks (mkWorld s cs))) = cs ++ cs' /\
              metadata_writes c cs' = (2 * length ks)%nat.
Proof.
  intro HL. destruct ks as [|k0 ks0] using rev_ind.
  - rewrite multiGet_nil. cbn [snd calls]. eexists. split; [reflexivity|].
    now apply metadata_writes_nil_calls.
  - rewrite (multiGet_snoc_eq c ks0 k0 s cs L HL). cbn [snd calls].
    eexists. split; [reflexivity|].
    rewrite !metadata_writes_app, !metadata_writes_gets, !metadata_writes_sets,
      metadata_writes_nil_calls by discriminate.
    lia.
Qed.

End ClaimFacts.

(* ------------------------------------------------------------------ *)
(** * The claims *)

Module Claims.
Import StoreFacts JsonFacts CacheFacts LockstepFacts OpFacts KeyFacts OrderFacts
  ClaimFacts Examples.

(** C1 (as amended).  For every key other than the reserved ["_lru"] and
    every non-empty value [v], [setItem(key, v)] followed by [getItem(key)]
    returns [v], whatever the byte size of the entry (the code has no
    [maxSize]), provided [maxEntries] is unset, 0 or a positive integer and
    the LRU record holds no array item other than strings. *)
Theorem C1_setItem_getItem_roundtrip (c : Cache) (key v : jstr) (w : world) :
  key <> js "_lru" -> v <> [] ->
  (forall m, maxEntries (policy c) = Some m -> m = 0 \/ 1 <= m) ->
  record_strings_only c (store_of w) = true ->
  fst (getItem c key (snd (setItem c key v w))) = Ok (Some (BStr v)).
Proof.
  intros Hk Hv Hpol Hstr.
  pose proof (setItem_keeps_value c key v w Hk Hpol Hstr) as H.
  destruct (snd (setItem c key v w)) as [s cs]. cbn [store_of] in H.
  now rewrite (getItem_found c key v s cs H Hv).
Qed.

Lemma C1_witness :
  fst (getItem entry_cache (js "k") (snd (setItem entry_cache (js "k") (js "v") empty_world)))
  = Ok (Some (BStr (js "v"))).
Proof.
  apply C1_setItem_getItem_roundtrip.
  - vm_compute. discriminate.
  - vm_compute. discriminate.
  - simpl. intros m [= <-]. right. lia.
  - reflexivity.
Defined.

(** C1 fails as stated: an empty value reads back as not found; a value
    stored under ["_lru"] is overwritten by the LRU record; and with
    [maxEntries = 1], a record ["[1]"] (its item the number 1, which
    [removeFromLRU] and the key of the refresh never equal) makes
    [setItem("1", v)] evict the entry it just wrote. *)
Lemma C1_counterexample :
  fst (getItem (plain "ns") (js "k")
         (snd (setItem (plain "ns") (js "k") [] empty_world))) = Ok None /\
  fst (getItem (plain "ns") (js "_lru")
         (snd (setItem (plain "ns") (js "_lru") (rec []) empty_world)))
    = Ok (Some (BStr (rec [js "_lru"]))) /\
  fst (getItem entry_cache (js "1")
         (snd (setItem entry_cache (js "1") (js "v")
                 (mkWorld [(js "entry:_lru", js "[1]")] [])))) = Ok None.
Proof. split; [|split]; vm_compute; reflexivity. Qed.

(** C2 (code bug).  With the test suite's [{maxSize: 128}] policy, an entry
    of more than 128 bytes is stored by [setItem] and read back by
    [getItem]: no code path reads [maxSize]. *)
Theorem C2_oversized_entry_stored :
  byteLength (makeCompositeKey size_cache (js "k")) + byteLength big_value > 128 /\
  maxSize (policy size_cache) = Some 128 /\
  fst (getItem size_cache (js "k") (snd (setItem size_cache (js "k") big_value empty_world)))
  = Ok (Some (BStr big_value)).
Proof. split; [|split]; vm_compute; reflexivity. Qed.

(** C3 (as amended).  With [maxEntries = m > 0] and an order list [L]
    longer than [m], [enforceLimits] raises no error, leaves exactly the
    last [m] entries of [L] (it drops the [length L - m] oldest from the
    head), deletes the backend entry of every evicted key other than the
    reserved ["_lru"], and touches no other backend key. *)
Theorem C3_enforceLimits_evicts_oldest (c : Cache) (m : Z) (s : store) (cs : list call)
    (L : list jstr) :
  maxEntries (policy c) = Some m -> 0 < m -> lru_record c s = Some L ->
  m < Z.of_nat (length L) ->
  let n := (length L - Z.to_nat m)%nat in
  let w' := snd (enforceLimits c (mkWorld s cs)) in
  fst (enforceLimits c (mkWorld s cs)) = Ok tt /\
  lru_record c (store_of w') = Some (skipn n L) /\
  (forall x, In x (firstn n L) -> x <> js "_lru" ->
             st_get (makeCompositeKey c x) (store_of w') = None) /\
  (forall k, k <> getLRUKey c -> (forall x, In x (firstn n L) -> k <> makeCompositeKey c x) ->
             st_get k (store_of w') = st_get k s).
Proof.
  intros Hm Hpos HL Hlen n w'.
  assert (Hn : Z.to_nat (Z.max 0 (Z.of_nat (length L) - m)) = n) by (unfold n; lia).
  pose proof (enforceLimits_eq c m s cs L Hm ltac:(lia) HL) as H. cbv zeta in H.
  rewrite Hn in H. destruct H as [cs' [Hrun _]].
  unfold w'. rewrite Hrun. cbn [fst snd store_of].
  split; [reflexivity|]. split; [|split].
  - apply lru_record_set_lk.
  - intros x Hx Hlru. rewrite st_get_set_neq by (now apply ck_neq_lk).
    rewrite st_get_fold_remove.
    replace (existsb _ _) with true; [reflexivity|]. symmetry.
    apply existsb_exists. exists (makeCompositeKey c x).
    split; [now apply in_map|apply jeqb_refl].
  - intros k Hk Hx. rewrite st_get_set_neq by exact Hk. rewrite st_get_fold_remove.
    destruct (existsb _ _) eqn:E; [|reflexivity].
    apply existsb_exists in E. destruct E as [y [Hy E]]. apply jeqb_eq in E. subst y.
    apply in_map_iff in Hy. destruct Hy as [x [Ex Hx']].
    exfalso. exact (Hx x Hx' (eq_sym Ex)).
Qed.

Lemma C3_witness :
  let s := [(js "entry:_lru", rec [js "a"; js "b"]);
            (js "entry:a", js "1"); (js "entry:b", js "2")] in
  let w' := snd (enforceLimits entry_cache (mkWorld s [])) in
  fst (enforceLimits entry_cache (mkWorld s [])) = Ok tt /\
  lru_record entry_cache (store_of w') = Some (skipn 1 [js "a"; js "b"]) /\
  (forall x, In x (firstn 1 [js "a"; js "b"]) -> x <> js "_lru" ->
             st_get (makeCompositeKey entry_cache x) (store_of w') = None) /\
  (forall k, k <> getLRUKey entry_cache ->
             (forall x, In x (firstn 1 [js "a"; js "b"]) -> k <> makeCompositeKey entry_cache x) ->
             st_get k (store_of w') = st_get k s).
Proof.
  intros s w'.
  apply (C3_enforceLimits_evicts_oldest entry_cache 1 s [] [js "a"; js "b"]).
  - reflexivity.
  - lia.
  - vm_compute. reflexivity.
  - simpl. lia.
Defined.

(** C3 fails as stated: an evicted key ["_lru"] (stored through
    [setItem("_lru", ...)]) shares its composite key with the LRU record,
    which is rewritten, so the evicted entry stays in the backend and
    [getItem("_lru")] still finds it. *)
Lemma C3_counterexample :
  let s := [(js "entry:_lru", rec [js "_lru"; js "a"]); (js "entry:a", js "x")] in
  firstn 1 [js "_lru"; js "a"] = [js "_lru"] /\
  fst (getItem entry_cache (js "_lru") (snd (enforceLimits entry_cache (mkWorld s []))))
    = Ok (Some (BStr (rec [js "a"]))) /\
  fst (getItem entry_cache (js "_lru")
         (snd (setItem entry_cache (js "a") (js "x")
                 (snd (setItem entry_cache (js "_lru") (rec []) empty_world)))))
    = Ok (Some (BStr (rec [js "a"]))).
Proof. split; [|split]; vm_compute; reflexivity. Qed.

(** C4 (as amended).  [setItem] rejects no key: [setItem("_lru", v)] first
    writes [v] over the namespace's LRU record.  When [v] is not JSON, the
    following [JSON.parse] raises a [SyntaxError] after that write; when
    it is JSON but not an array, [lru.filter] raises a [TypeError]; when it
    is empty or the JSON text of an array of strings, the call completes
    without error, its first backend call being that write. *)
Theorem C4_setItem_reserved_key (c : Cache) (v : jstr) (s : store) (cs : list call) :
  (v <> [] -> Json.parse v = None ->
     setItem c (js "_lru") v (mkWorld s cs) =
       (Err SyntaxError, mkWorld (st_set (getLRUKey c) v s)
                                 (cs ++ [CSetItem (getLRUKey c) v; CGetItem (getLRUKey c)]))) /\
  (forall j, Json.parse v = Some j -> (forall xs, j <> JArr xs) ->
     setItem c (js "_lru") v (mkWorld s cs) =
       (Err TypeError, mkWorld (st_set (getLRUKey c) v s)
                               (cs ++ [CSetItem (getLRUKey c) v; CGetItem (getLRUKey c)]))) /\
  (forall L, v = [] \/ Json.parse v = Some (JArr (map JStr L)) ->
     fst (setItem c (js "_lru") v (mkWorld s cs)) = Ok tt /\
     exists cs', calls (snd (setItem c (js "_lru") v (mkWorld s cs))) =
                 cs ++ CSetItem (getLRUKey c) v :: cs').
Proof.
  assert (H0 : Backend.setItem (getLRUKey c) v (mkWorld s cs) =
               (Ok tt, mkWorld (st_set (getLRUKey c) v s) (cs ++ [CSetItem (getLRUKey c) v]))).
  { unfold Backend.setItem, log. cbn [store_of calls]. now rewrite write_lk. }
  assert (HV : lru_value c (st_set (getLRUKey c) v s) = decode_lru (Some (BStr v)))
    by (apply lru_value_text; apply st_get_set_eq).
  unfold setItem. change (makeCompositeKey c (js "_lru")) with (getLRUKey c).
  rewrite (bind_ok _ _ _ _ _ H0). cbv beta.
  split; [|split].
  - intros Hne Hp.
    assert (He : refresh_error (lru_value c (st_set (getLRUKey c) v s)) = Some SyntaxError)
      by (rewrite HV, (decode_syntax v Hne Hp); reflexivity).
    rewrite (bind_err _ _ _ _ _ (refreshLRU_fails c (js "_lru") _ _ SyntaxError He)).
    now rewrite <- app_assoc.
  - intros j Hp Hj.
    assert (He : refresh_error (lru_value c (st_set (getLRUKey c) v s)) = Some TypeError)
      by (rewrite HV; exact (decode_not_array v j Hp Hj)).
    rewrite (bind_err _ _ _ _ _ (refreshLRU_fails c (js "_lru") _ _ TypeError He)).
    now rewrite <- app_assoc.
  - intros L HL.
    assert (HR : exists L0, lru_record c (st_set (getLRUKey c) v s) = Some L0).
    { destruct HL as [->|HL].
      - exists []. unfold lru_record. now rewrite HV.
      - exists L. apply lru_record_value. rewrite HV. exact (decode_parsed v _ HL). }
    destruct HR as [L0 HR].
    rewrite (bind_ok _ _ _ _ _ (refreshLRU_eq c (js "_lru") _ _ L0 HR)). cbv beta.
    match goal with |- context [enforceLimits c (mkWorld ?s2 ?cs2)] =>
      destruct (enforceLimits_run c s2 cs2 _ (lru_record_set_lk c _ _)) as [cs' [E _]]
    end.
    rewrite E. cbn [fst snd calls].
    split; [reflexivity|]. eexists. rewrite <- !app_assoc. reflexivity.
Qed.

Lemma C4_witness :
  setItem (plain "ns") (js "_lru") (js "hello") empty_world =
    (Err SyntaxError, mkWorld (st_set (getLRUKey (plain "ns")) (js "hello") [])
                              ([] ++ [CSetItem (getLRUKey (plain "ns")) (js "hello");
                                      CGetItem (getLRUKey (plain "ns"))])) /\
  setItem (plain "ns") (js "_lru") (js "null") empty_world =
    (Err TypeError, mkWorld (st_set (getLRUKey (plain "ns")) (js "null") [])
                            ([] ++ [CSetItem (getLRUKey (plain "ns")) (js "null");
                                    CGetItem (getLRUKey (plain "ns"))])) /\
  fst (setItem (plain "ns") (js "_lru") (rec [js "a"]) empty_world) = Ok tt.
Proof.
  split; [|split].
  - apply (proj1 (C4_setItem_reserved_key (plain "ns") (js "hello") [] [])).
    + vm_compute. discriminate.
    + vm_compute. reflexivity.
  - apply (proj1 (proj2 (C4_setItem_reserved_key (plain "ns") (js "null") [] [])) JNull).
    + vm_compute. reflexivity.
    + intros xs. discriminate.
  - apply (proj2 (proj2 (C4_setItem_reserved_key (plain "ns") (rec [js "a"]) [] []))
             [js "a"]).
    right. vm_compute. reflexivity.
Defined.

(** C4 fails as stated: [setItem] with the reserved key ["_lru"], or with
    the spec's ["_metadata"], raises nothing and changes the backend. *)
Lemma C4_counterexample :
  setItem (plain "ns") (js "_lru") (rec []) empty_world =
    (Ok tt, snd (setItem (plain "ns") (js "_lru") (rec []) empty_world)) /\
  store_of (snd (setItem (plain "ns") (js "_lru") (rec []) empty_world))
    = [(js "ns:_lru", rec [js "_lru"])] /\
  fst (setItem (plain "ns") (js "_metadata") (js "x") empty_world) = Ok tt /\
  st_get (js "ns:_metadata")
    (store_of (snd (setItem (plain "ns") (js "_metadata") (js "x") empty_world)))
    = Some (js "x").
Proof. split; [|split; [|split]]; vm_compute; reflexivity. Qed.

(** C6 (as amended).  No operation batches its writes of the LRU record:
    from a readable record, [setItem(key, v)] (key other than ["_lru"])
    writes it twice in [refreshLRU] (once removing the key, once appending
    it), and, when [maxEntries] is set and non-zero, once per evicted entry
    plus once for the survivor list; [multiGet(keys)] refreshes each key on
    its own, writing the record twice per key. *)
Theorem C6_metadata_write_counts (c : Cache) (s : store) (cs : list call) (L : list jstr) :
  lru_record c s = Some L ->
  (forall key v, key <> js "_lru" ->
     exists cs', calls (snd (setItem c key v (mkWorld s cs))) = cs ++ cs' /\
       metadata_writes c cs' =
         (2 + enforce_writes c (filter (fun item => negb (jeqb item key)) L ++ [key]))%nat) /\
  (forall ks, exists cs', calls (snd (multiGet c ks (mkWorld s cs))) = cs ++ cs' /\
       metadata_writes c cs' = (2 * length ks)%nat).
Proof.
  intro HL. split.
  - intros key v Hk. destruct (setItem_eq c key v s cs L Hk HL) as [cs' [E W]].
    exists cs'. rewrite E. split; [reflexivity|exact W].
  - intro ks. exact (multiGet_writes c ks s cs L HL).
Qed.

Lemma C6_witness :
  (forall key v, key <> js "_lru" ->
     exists cs', calls (snd (setItem (plain "ns") key v empty_world)) = [] ++ cs' /\
       metadata_writes (plain "ns") cs' =
         (2 + enforce_writes (plain "ns")
                (filter (fun item => negb (jeqb item key)) [] ++ [key]))%nat) /\
  (forall ks, exists cs', calls (snd (multiGet (plain "ns") ks empty_world)) = [] ++ cs' /\
       metadata_writes (plain "ns") cs' = (2 * length ks)%nat).
Proof. apply (C6_metadata_write_counts (plain "ns") [] [] []). reflexivity. Defined.

(** C6 fails as stated: one [setItem] on a fresh namespace writes the LRU
    record twice, and [multiGet] of two keys writes it four times. *)
Lemma C6_counterexample :
  metadata_writes (plain "ns")
    (calls (snd (setItem (plain "ns") (js "k") (js "v") empty_world))) = 2%nat /\
  metadata_writes (plain "ns")
    (calls (snd (multiGet (plain "ns") [js "a"; js "b"] empty_world))) = 4%nat.
Proof. split; vm_compute; reflexivity. Qed.

(** C7 (code bug).  [getAllKeys] filters backend keys with
    [k.startsWith(namespace)], without the [":"] separator that
    [makeCompositeKey] puts after the namespace: in namespace ["a"], the
    entry ["x"] of namespace ["ab"] is listed (as [":x"]). *)
Theorem C7_getAllKeys_foreign_namespace :
  fst (getAllKeys (plain "a")
         (mkWorld [(js "ab:x", js "1"); (js "a:y", js "2"); (js "a:_lru", rec [js "y"])] []))
  = Ok [js ":x"; js "y"].
Proof. vm_compute. reflexivity. Qed.




(** C9 (as amended).  [removeItem(key)] for a key with no backend entry
    raises no error when the LRU record reads as an array (missing, empty,
    or JSON array text).  When the record is stored as the code writes it
    and [key] is not in it, the backend store is left as it was (the
    record is rewritten with the same text); when the namespace has no
    record yet, the only change is a new record holding the empty list.
    A record that is not JSON makes it raise [SyntaxError], and JSON that
    is not an array a [TypeError], with the store left as it was. *)
Theorem C9_removeItem_absent_noop (c : Cache) (key : jstr) (s : store) (cs : list call) :
  st_get (makeCompositeKey c key) s = None ->
  (forall r, lru_value c s = Ok (JArr r) ->
     fst (removeItem c (JStr key) (mkWorld s cs)) = Ok tt) /\
  (forall L, st_get (getLRUKey c) s = Some (rec L) -> ~ In key L ->
     removeItem c (JStr key) (mkWorld s cs) =
       (Ok tt, mkWorld s (cs ++ [CRemoveItem (makeCompositeKey c key); CGetItem (getLRUKey c);
                                 CSetItem (getLRUKey c) (rec L)]))) /\
  (st_get (getLRUKey c) s = None ->
     removeItem c (JStr key) (mkWorld s cs) =
       (Ok tt, mkWorld (st_set (getLRUKey c) (rec []) s)
                 (cs ++ [CRemoveItem (makeCompositeKey c key); CGetItem (getLRUKey c);
                         CSetItem (getLRUKey c) (rec [])]))) /\
  (forall t, st_get (getLRUKey c) s = Some t -> t <> [] -> Json.parse t = None ->
     removeItem c (JStr key) (mkWorld s cs) =
       (Err SyntaxError,
        mkWorld s (cs ++ [CRemoveItem (makeCompositeKey c key); CGetItem (getLRUKey c)]))) /\
  (forall t j, st_get (getLRUKey c) s = Some t -> Json.parse t = Some j ->
     (forall xs, j <> JArr xs) ->
     removeItem c (JStr key) (mkWorld s cs) =
       (Err TypeError,
        mkWorld s (cs ++ [CRemoveItem (makeCompositeKey c key); CGetItem (getLRUKey c)]))).
Proof.
  intro Hv. pose proof (st_remove_absent _ _ Hv) as Hs.
  split; [|split; [|split; [|split]]].
  - intros r Hr. apply (removeItem_ok c key s cs r). now rewrite Hs.
  - intros L Hr Hk.
    rewrite (removeItem_eq c key s cs L) by (rewrite Hs; now apply lru_record_rec).
    rewrite Hs, (keep_absent L key Hk), (st_set_same _ _ s Hr). reflexivity.
  - intro Hr.
    rewrite (removeItem_eq c key s cs []) by (rewrite Hs; now apply lru_record_none).
    rewrite Hs. reflexivity.
  - intros t Hr Ht Hp.
    assert (He : refresh_error (lru_value c (st_remove (makeCompositeKey c key) s))
                 = Some SyntaxError)
      by (rewrite Hs, (lru_value_text c s t Hr), (decode_syntax t Ht Hp); reflexivity).
    rewrite (removeItem_fails c key s cs SyntaxError He), Hs. reflexivity.
  - intros t j Hr Hp Hj.
    assert (He : refresh_error (lru_value c (st_remove (makeCompositeKey c key) s))
                 = Some TypeError)
      by (rewrite Hs, (lru_value_text c s t Hr); exact (decode_not_array t j Hp Hj)).
    rewrite (removeItem_fails c key s cs TypeError He), Hs. reflexivity.
Qed.

Lemma C9_witness :
  removeItem (plain "ns") (JStr (js "x")) (mkWorld [(js "ns:_lru", rec [js "a"])] []) =
    (Ok tt, mkWorld [(js "ns:_lru", rec [js "a"])]
               ([] ++ [CRemoveItem (makeCompositeKey (plain "ns") (js "x"));
                       CGetItem (getLRUKey (plain "ns"));
                       CSetItem (getLRUKey (plain "ns")) (rec [js "a"])])) /\
  removeItem (plain "ns") (JStr (js "x")) (mkWorld [(js "ns:_lru", js "oops")] []) =
    (Err SyntaxError, mkWorld [(js "ns:_lru", js "oops")]
               ([] ++ [CRemoveItem (makeCompositeKey (plain "ns") (js "x"));
                       CGetItem (getLRUKey (plain "ns"))])).
Proof.
  split.
  - apply (proj1 (proj2 (C9_removeItem_absent_noop (plain "ns") (js "x")
             [(js "ns:_lru", rec [js "a"])] [] ltac:(reflexivity))) [js "a"]).
    + reflexivity.
    + simpl. intros [H|[]]. discriminate.
  - apply (proj1 (proj2 (proj2 (proj2 (C9_removeItem_absent_noop (plain "ns") (js "x")
             [(js "ns:_lru", js "oops")] [] ltac:(reflexivity))))) (js "oops")).
    + reflexivity.
    + vm_compute. discriminate.
    + vm_compute. reflexivity.
Defined.

(** C9 fails as stated: in a namespace with no LRU record yet,
    [removeItem] of an absent key persists a new record ["[]"]; and with a
    record that is not JSON it raises [SyntaxError]. *)
Lemma C9_counterexample :
  store_of empty_world = [] /\
  store_of (snd (removeItem (plain "ns") (JStr (js "x")) empty_world))
    = [(js "ns:_lru", rec [])] /\
  fst (removeItem (plain "ns") (JStr (js "x")) (mkWorld [(js "ns:_lru", js "oops")] []))
    = Err SyntaxError.
Proof. split; [|split]; vm_compute; reflexivity. Qed.

(** C10.  A key whose backend value is the empty string: [peek] yields
    the empty string, while [getItem] returns not-found and leaves the
    store as it was (no recency refresh; its only backend call is the
    read). *)
Theorem C10_getItem_empty_value (c : Cache) (key : jstr) (w : world) :
  st_get (makeCompositeKey c key) (store_of w) = Some [] ->
  fst (peek c key w) = Ok (Some (BStr [])) /\
  getItem c key w =
    (Ok None, mkWorld (store_of w) (calls w ++ [CGetItem (makeCompositeKey c key)])).
Proof.
  intro H. destruct w as [s cs]. cbn [store_of calls] in *. split.
  - unfold peek, Backend.getItem. cbn [fst store_of]. now rewrite lookup_ck, H.
  - apply getItem_absent. now right.
Qed.

Lemma C10_witness :
  fst (peek (plain "ns") (js "k") (mkWorld [(js "ns:k", [])] [])) = Ok (Some (BStr [])) /\
  getItem (plain "ns") (js "k") (mkWorld [(js "ns:k", [])] []) =
    (Ok None, mkWorld [(js "ns:k", [])] ([] ++ [CGetItem (makeCompositeKey (plain "ns") (js "k"))])).
Proof.
  apply (C10_getItem_empty_value (plain "ns") (js "k") (mkWorld [(js "ns:k", [])] [])).
  reflexivity.
Defined.

End Claims.

(* ------------------------------------------------------------------ *)
(** * Further properties of the code *)

Module Extras.
Import StoreFacts JsonFacts CacheFacts LockstepFacts OpFacts KeyFacts FrameFacts
  ClaimFacts Examples.

(** [makeCompositeKey] / [fromCompositeKey]: stripping the prefix gives
    back the key; two keys of one cache never share a backend key; and
    caches with different namespaces free of [":"] never share one. *)
Theorem composite_key_codec (c c' : Cache) :
  (forall k, fromCompositeKey c (makeCompositeKey c k) = k) /\
  (forall a b, makeCompositeKey c a = makeCompositeKey c b -> a = b) /\
  (~ In 58%N (namespace c) -> ~ In 58%N (namespace c') ->
   namespace c <> namespace c' ->
   forall a b, makeCompositeKey c a <> makeCompositeKey c' b).
Proof.
  split; [apply from_ck|split; [apply makeCompositeKey_inj|]].
  intros H1 H2 Hne a b E. unfold makeCompositeKey in E.
  change (js ":") with [58%N] in E. cbn [app] in E.
  destruct (composite_split _ _ _ _ H1 H2 E). contradiction.
Qed.

Lemma composite_key_codec_witness :
  fromCompositeKey (plain "a") (makeCompositeKey (plain "a") (js "x:y")) = js "x:y" /\
  (makeCompositeKey (plain "a") (js "x") = makeCompositeKey (plain "a") (js "x") ->
   js "x" = js "x") /\
  makeCompositeKey (plain "a") (js "b:x") <> makeCompositeKey (plain "ab") (js "x").
Proof.
  destruct (composite_key_codec (plain "a") (plain "ab")) as [H1 [H2 H3]].
  split; [apply H1|split; [apply H2|]].
  apply H3; vm_compute; intuition discriminate.
Defined.

(** Every operation except [clearAll] (including [enforceLimits]), issued
    on a cache whose namespace has no [":"], leaves the backend value of
    every key of a cache with a different such namespace (its entries and
    its LRU record) as it was. *)
Theorem operations_isolated (c c' : Cache) (o : op) (w : world) (k : jstr) :
  ~ In 58%N (namespace c) -> ~ In 58%N (namespace c') ->
  namespace c <> namespace c' -> o <> OpClearAll ->
  st_get (makeCompositeKey c' k) (store_of (snd (run_op c o w))) =
  st_get (makeCompositeKey c' k) (store_of w).
Proof.
  intros H1 H2 Hne Ho.
  apply (frames_run_op (fun k => exists x, k = makeCompositeKey c x) c o); [eauto|exact Ho|].
  intros [x E]. unfold makeCompositeKey in E.
  change (js ":") with [58%N] in E. cbn [app] in E.
  destruct (composite_split _ _ _ _ H1 H2 (eq_sym E)). contradiction.
Qed.

Lemma operations_isolated_witness :
  st_get (makeCompositeKey (plain "ab") (js "x"))
    (store_of (snd (run_op entry_cache (OpSetItem (js "x") (js "1"))
                      (mkWorld [(js "ab:x", js "2")] [])))) = Some (js "2") /\
  st_get (makeCompositeKey (plain "ab") (js "_lru"))
    (store_of (snd (run_op entry_cache OpEnforceLimits
                      (mkWorld [(js "ab:_lru", rec [js "x"])] [])))) = Some (rec [js "x"]).
Proof.
  split.
  - rewrite (operations_isolated entry_cache (plain "ab") (OpSetItem (js "x") (js "1"))
               (mkWorld [(js "ab:x", js "2")] []) (js "x")).
    + reflexivity.
    + vm_compute. intuition discriminate.
    + vm_compute. intuition discriminate.
    + vm_compute. discriminate.
    + discriminate.
  - rewrite (operations_isolated entry_cache (plain "ab") OpEnforceLimits
               (mkWorld [(js "ab:_lru", rec [js "x"])] []) (js "_lru")).
    + reflexivity.
    + vm_compute. intuition discriminate.
    + vm_compute. intuition discriminate.
    + vm_compute. discriminate.
    + discriminate.
Defined.

(** [clearAll] never fails (it does not read the LRU record); afterwards
    [getAllKeys] and [getAll] return empty lists, the LRU record holds the
    empty list, and every backend key that does not start with the
    namespace keeps its value. *)
Theorem clearAll_empties (c : Cache) (w : world) :
  fst (clearAll c w) = Ok tt /\
  fst (getAllKeys c (snd (clearAll c w))) = Ok [] /\
  fst (getAll c (snd (clearAll c w))) = Ok [] /\
  lru_record c (store_of (snd (clearAll c w))) = Some [] /\
  (forall k, startsWith k (namespace c) = false ->
     st_get k (store_of (snd (clearAll c w))) = st_get k (store_of w)).
Proof.
  destruct w as [s cs]. destruct (clearAll_eq c s cs) as [cs' E]. rewrite E.
  cbn [fst snd store_of].
  assert (Hf : filter (fun k => startsWith k (namespace c) && negb (jeqb k (getLRUKey c)))
                 (own_order (fun k => k) (map fst (cleared c s))) = []).
  { apply filter_none. intros x Hx.
    apply (Permutation_in _ (own_order_perm _ _)) in Hx. unfold cleared in Hx.
    apply keys_st_set in Hx. destruct Hx as [->|Hx].
    - now rewrite jeqb_refl, andb_false_r.
    - apply keys_fold_remove in Hx. destruct Hx as [Hx Hn].
      destruct (startsWith x (namespace c)) eqn:P; [|reflexivity].
      exfalso. apply Hn. apply filter_In. split; [|exact P].
      exact (Permutation_in _ (Permutation_sym (own_order_perm _ _)) Hx). }
  assert (HG : getAllKeys c (mkWorld (cleared c s) cs') =
               (Ok [], mkWorld (cleared c s) (cs' ++ [CGetAllKeys]))).
  { unfold getAllKeys, bind, Backend.getAllKeys, ret, log. cbn [store_of calls].
    now rewrite Hf. }
  split; [reflexivity|]. split; [|split; [|split]].
  - now rewrite HG.
  - unfold getAll. rewrite (bind_ok _ _ _ _ _ HG). now rewrite multiGet_nil.
  - unfold cleared. apply lru_record_set_lk.
  - intros k Hk. unfold cleared. rewrite st_get_set_neq.
    + rewrite st_get_fold_remove.
      destruct (existsb _ _) eqn:Ex; [|reflexivity].
      apply existsb_exists in Ex. destruct Ex as [x [Hx Ex]].
      apply jeqb_eq in Ex. subst x. apply filter_In in Hx. destruct Hx as [_ Hx].
      congruence.
    + intros ->. now rewrite lk_prefix in Hk.
Qed.

Lemma clearAll_empties_witness :
  fst (getAll (plain "ns") (snd (clearAll (plain "ns")
         (mkWorld [(js "ns:a", js "1"); (js "other", js "2")] [])))) = Ok [] /\
  st_get (js "other") (store_of (snd (clearAll (plain "ns")
         (mkWorld [(js "ns:a", js "1"); (js "other", js "2")] []))))
  = Some (js "2").
Proof.
  destruct (clearAll_empties (plain "ns")
              (mkWorld [(js "ns:a", js "1"); (js "other", js "2")] []))
    as (_ & _ & H3 & _ & H5).
  split; [exact H3|]. rewrite H5; [reflexivity|]. vm_compute. reflexivity.
Defined.

(** [setLRU] then [getLRU]: the order list comes back as it was written,
    for keys made of any UTF-16 code units, lone surrogates included
    ([JSON.stringify] then [JSON.parse]). *)
Theorem setLRU_getLRU (c : Cache) (L : list jstr) (w : world) :
  fst (getLRU c (snd (setLRU c (JArr (map JStr L)) w))) = Ok (JArr (map JStr L)).
Proof.
  destruct w as [s cs]. rewrite setLRU_eq. cbn [snd]. rewrite getLRU_eq. cbn [fst].
  apply lru_value_rec. apply st_get_set_eq.
Qed.

(** [byteLength]: it adds up over concatenation; a code unit below [0x80]
    counts 1, one below [0x800] counts 2, one below [0x10000] counts 3;
    a string counts between one and three bytes per code unit, and its
    length when all its code units are below 128. *)
Theorem byteLength_bounds :
  (forall a b, byteLength (a ++ b) = byteLength a + byteLength b) /\
  (forall s, Z.of_nat (length s) <= byteLength s <= 3 * Z.of_nat (length s)) /\
  (forall u, (u < 128)%N -> byteLength [u] = 1) /\
  (forall u, (128 <= u < 2048)%N -> byteLength [u] = 2) /\
  (forall u, (2048 <= u < 65536)%N -> byteLength [u] = 3) /\
  (forall s, (forall u, In u s -> (u < 128)%N) -> byteLength s = Z.of_nat (length s)).
Proof.
  split; [|split; [|split; [|split; [|split]]]].
  - intros a b. induction a as [|u a IH]; cbn [app byteLength]; [reflexivity|].
    rewrite IH. lia.
  - intro s. induction s as [|u s IH]; cbn [byteLength length]; [lia|].
    rewrite Nat2Z.inj_succ.
    repeat match goal with |- context [if ?b then _ else _] => destruct b end; lia.
  - intros u Hu. cbn [byteLength].
    destruct (Z.ltb_spec 0x7F (Z.of_N u)); [lia|].
    destruct (Z.ltb_spec 0x7FF (Z.of_N u)); [lia|]. cbn [andb]. lia.
  - intros u Hu. cbn [byteLength].
    destruct (Z.ltb_spec 0x7F (Z.of_N u)); [|lia].
    destruct (Z.leb_spec (Z.of_N u) 0x7FF); [|lia]. cbn [andb]. lia.
  - intros u Hu. cbn [byteLength].
    destruct (Z.ltb_spec 0x7F (Z.of_N u)); [|lia].
    destruct (Z.leb_spec (Z.of_N u) 0x7FF); [lia|].
    destruct (Z.ltb_spec 0x7FF (Z.of_N u)); [|lia].
    destruct (Z.leb_spec (Z.of_N u) 0xFFFF); [|lia]. cbn [andb]. lia.
  - intros s H. induction s as [|u s IH]; cbn [byteLength length]; [reflexivity|].
    rewrite Nat2Z.inj_succ, IH by (intros; apply H; now right).
    assert (Hu : (u < 128)%N) by (apply H; now left).
    destruct (Z.ltb_spec 0x7F (Z.of_N u)); [lia|].
    destruct (Z.ltb_spec 0x7FF (Z.of_N u)); [lia|]. cbn [andb]. lia.
Qed.

Lemma byteLength_bounds_witness :
  byteLength [20013%N] = 3 /\ byteLength [233%N] = 2 /\
  byteLength (js "cache") = Z.of_nat (length (js "cache")).
Proof.
  destruct byteLength_bounds as (_ & _ & _ & H2 & H3 & H4).
  split; [|split].
  - apply H3. lia.
  - apply H2. lia.
  - apply H4. intros u H. vm_compute in H.
    repeat (destruct H as [<-|H]; [lia|]). destruct H.
Defined.

(** After [removeItem(key)] (a key other than ["_lru"]), [getItem(key)]
    returns not-found and writes nothing, whatever the LRU record holds
    (even when [removeItem] itself failed on an unreadable record). *)
Theorem removeItem_then_getItem (c : Cache) (key : jstr) (w : world) :
  key <> js "_lru" ->
  fst (getItem c key (snd (removeItem c (JStr key) w))) = Ok None /\
  store_of (snd (getItem c key (snd (removeItem c (JStr key) w)))) =
  store_of (snd (removeItem c (JStr key) w)).
Proof.
  intro Hk.
  assert (H : st_get (makeCompositeKey c key) (store_of (snd (removeItem c (JStr key) w)))
              = None).
  { destruct w as [s cs].
    assert (E : removeItem c (JStr key) (mkWorld s cs) =
                removeFromLRU c (JStr key)
                  (mkWorld (st_remove (makeCompositeKey c key) s)
                           (cs ++ [CRemoveItem (makeCompositeKey c key)]))) by reflexivity.
    rewrite E.
    rewrite (frames_removeFromLRU (fun k => k = getLRUKey c) c eq_refl (JStr key)).
    - apply st_get_remove_eq.
    - now apply ck_neq_lk. }
  destruct (snd (removeItem c (JStr key) w)) as [s' cs']. cbn [store_of] in H.
  rewrite (getItem_absent c key s' cs' (or_introl H)). split; reflexivity.
Qed.

Lemma removeItem_then_getItem_witness :
  fst (getItem (plain "ns") (js "a")
         (snd (removeItem (plain "ns") (JStr (js "a"))
                 (mkWorld [(js "ns:a", js "1")] [])))) = Ok None /\
  store_of (snd (getItem (plain "ns") (js "a")
         (snd (removeItem (plain "ns") (JStr (js "a"))
                 (mkWorld [(js "ns:a", js "1")] [])))))
  = store_of (snd (removeItem (plain "ns") (JStr (js "a"))
                     (mkWorld [(js "ns:a", js "1")] []))).
Proof. apply removeItem_then_getItem. vm_compute. discriminate. Defined.

(** [removeItem(key)] with a readable LRU record: it completes, the
    entry is gone from the backend, every occurrence of [key] is gone from
    the order list, and no other backend key changes. *)
Theorem removeItem_deletes (c : Cache) (key : jstr) (s : store) (cs : list call)
    (L : list jstr) :
  key <> js "_lru" -> lru_record c s = Some L ->
  fst (removeItem c (JStr key) (mkWorld s cs)) = Ok tt /\
  st_get (makeCompositeKey c key)
    (store_of (snd (removeItem c (JStr key) (mkWorld s cs)))) = None /\
  lru_record c (store_of (snd (removeItem c (JStr key) (mkWorld s cs)))) =
    Some (filter (fun item => negb (jeqb item key)) L) /\
  (forall k, k <> makeCompositeKey c key -> k <> getLRUKey c ->
     st_get k (store_of (snd (removeItem c (JStr key) (mkWorld s cs)))) = st_get k s).
Proof.
  intros Hk HL. pose proof (ck_neq_lk c key Hk) as Hne.
  assert (HL' : lru_record c (st_remove (makeCompositeKey c key) s) = Some L).
  { rewrite <- HL. apply lru_record_get. apply st_get_remove_neq.
    intro E. apply Hne. now symmetry. }
  rewrite (removeItem_eq c key s cs L HL'). cbn [fst snd store_of].
  split; [reflexivity|]. split; [|split].
  - rewrite st_get_set_neq by exact Hne. apply st_get_remove_eq.
  - apply lru_record_set_lk.
  - intros k H1 H2. rewrite st_get_set_neq by exact H2. now apply st_get_remove_neq.
Qed.

Lemma removeItem_deletes_witness :
  let s := [(js "ns:_lru", rec [js "a"; js "b"]); (js "ns:a", js "1")] in
  fst (removeItem (plain "ns") (JStr (js "a")) (mkWorld s [])) = Ok tt /\
  st_get (makeCompositeKey (plain "ns") (js "a"))
    (store_of (snd (removeItem (plain "ns") (JStr (js "a")) (mkWorld s [])))) = None /\
  lru_record (plain "ns") (store_of (snd (removeItem (plain "ns") (JStr (js "a")) (mkWorld s []))))
    = Some (filter (fun item => negb (jeqb item (js "a"))) [js "a"; js "b"]) /\
  (forall k, k <> makeCompositeKey (plain "ns") (js "a") -> k <> getLRUKey (plain "ns") ->
     st_get k (store_of (snd (removeItem (plain "ns") (JStr (js "a")) (mkWorld s []))))
     = st_get k s).
Proof.
  intro s. apply (removeItem_deletes (plain "ns") (js "a") s [] [js "a"; js "b"]).
  - vm_compute. discriminate.
  - vm_compute. reflexivity.
Defined.

(** [getItem(key)] on a stored non-empty value returns it and, once the
    recency refresh it starts without awaiting has run, the order list
    has [key] moved to its tail (every earlier occurrence removed); only
    the LRU record changes. *)
Theorem getItem_refreshes (c : Cache) (key v : jstr) (s : store) (cs : list call)
    (L : list jstr) :
  st_get (makeCompositeKey c key) s = Some v -> v <> [] -> lru_record c s = Some L ->
  fst (getItem c key (mkWorld s cs)) = Ok (Some (BStr v)) /\
  lru_record c (store_of (snd (getItem c key (mkWorld s cs)))) =
    Some (filter (fun item => negb (jeqb item key)) L ++ [key]) /\
  (forall k, k <> getLRUKey c ->
     st_get k (store_of (snd (getItem c key (mkWorld s cs)))) = st_get k s).
Proof.
  intros Hv Hne HL. rewrite (getItem_found_eq c key v s cs L Hv Hne HL).
  cbn [fst snd store_of].
  split; [reflexivity|]. split; [apply lru_record_set_lk|].
  intros k Hk. now apply st_get_set_neq.
Qed.

Lemma getItem_refreshes_witness :
  lru_record (plain "ns") (store_of (snd (getItem (plain "ns") (js "a")
    (mkWorld [(js "ns:_lru", rec [js "a"; js "b"]); (js "ns:a", js "1")] []))))
  = Some (filter (fun item => negb (jeqb item (js "a"))) [js "a"; js "b"] ++ [js "a"]).
Proof.
  apply (getItem_refreshes (plain "ns") (js "a") (js "1") _ [] [js "a"; js "b"]).
  - reflexivity.
  - vm_compute. discriminate.
  - vm_compute. reflexivity.
Defined.

(** [multiGet(keys)] with no key ["_lru"] returns, in the order of
    [keys], each key paired with the value the backend held for it before
    the call (none for a missing key); it changes no backend key but the
    LRU record. *)
Theorem multiGet_reads (c : Cache) (ks : list jstr) (s : store) (cs : list call) :
  ~ In (js "_lru") ks ->
  fst (multiGet c ks (mkWorld s cs)) =
    Ok (map (fun k => (k, option_map BStr (st_get (makeCompositeKey c k) s))) ks) /\
  (forall k, k <> getLRUKey c ->
     st_get k (store_of (snd (multiGet c ks (mkWorld s cs)))) = st_get k s).
Proof.
  intros _. split.
  - unfold multiGet.
    rewrite (bind_ok _ _ _ _ _ (mapM_reads ks (getLRUKey c) s cs)). cbv beta.
    erewrite bind_ok; [cbv beta|reflexivity].
    unfold bind at 1, detach, ret. cbn [fst].
    f_equal. rewrite !map_map. apply map_ext. intro k. cbn [fst snd].
    now rewrite from_ck, lookup_ck.
  - intros k Hk. apply (frames_multiGetC (fun k => k = getLRUKey c) c eq_refl). exact Hk.
Qed.

Lemma multiGet_reads_witness :
  fst (multiGet (plain "ns") [js "a"; js "b"] (mkWorld [(js "ns:a", js "1")] [])) =
    Ok [(js "a", Some (BStr (js "1"))); (js "b", None)].
Proof.
  rewrite (proj1 (multiGet_reads (plain "ns") [js "a"; js "b"] [(js "ns:a", js "1")] []
                   ltac:(vm_compute; intuition discriminate))).
  vm_compute. reflexivity.
Defined.

(** [multiRemove(keys)] never fails; afterwards no key of [keys] other than
    ["_lru"] has a backend entry, and backend keys other than theirs and
    the LRU record keep their values.  (["_lru"] is left out: the LRU
    updates it starts without awaiting write the record after the batched
    delete.) *)
Theorem multiRemove_deletes (c : Cache) (ks : list jstr) (w : world) :
  fst (multiRemove c ks w) = Ok tt /\
  (forall k, In k ks -> k <> js "_lru" ->
     st_get (makeCompositeKey c k) (store_of (snd (multiRemove c ks w))) = None) /\
  (forall k, k <> getLRUKey c -> ~ In k (map (makeCompositeKey c) ks) ->
     st_get k (store_of (snd (multiRemove c ks w))) = st_get k (store_of w)).
Proof.
  destruct w as [s cs]. unfold multiRemove.
  rewrite (bind_ok _ _ _ _ _ (mapM_reads ks (getLRUKey c) s cs)). cbv beta.
  erewrite bind_ok; [cbv beta|reflexivity].
  unfold detach. cbn [fst snd].
  match goal with |- context [snd (mapM settle (map ?g ?xs) ?w2)] =>
    pose proof (frames_settle_map (fun k => k = getLRUKey c) g xs
                  (fun p => frames_removeFromLRU_resume _ c eq_refl _ _) w2) as HX
  end.
  unfold log in HX. cbn [store_of] in HX.
  split; [reflexivity|]. split.
  - intros k Hk Hl. rewrite HX by (now apply ck_neq_lk). rewrite st_get_fold_remove.
    replace (existsb _ _) with true; [reflexivity|]. symmetry.
    apply existsb_exists. exists (makeCompositeKey c k).
    split; [now apply in_map|apply jeqb_refl].
  - intros k H1 H2. rewrite HX by exact H1. rewrite st_get_fold_remove.
    replace (existsb _ _) with false; [reflexivity|]. symmetry.
    apply not_true_iff_false. intro E. apply existsb_exists in E.
    destruct E as [x [Hx E]]. apply jeqb_eq in E. subst x. contradiction.
Qed.

Lemma multiRemove_deletes_witness :
  st_get (makeCompositeKey (plain "ns") (js "a"))
    (store_of (snd (multiRemove (plain "ns") [js "a"]
                      (mkWorld [(js "ns:a", js "1")] [])))) = None.
Proof.
  apply (proj1 (proj2 (multiRemove_deletes (plain "ns") [js "a"]
                        (mkWorld [(js "ns:a", js "1")] [])))).
  - now left.
  - vm_compute. discriminate.
Defined.

(** [setItem(key, v)] under [maxEntries = m >= 1], from a readable LRU
    record [L]: it completes, and the order list afterwards ends with
    [key], holds at most [m] keys, has no other occurrence of [key], and
    holds no key that was not already in [L]. *)
Theorem setItem_bounded (c : Cache) (key v : jstr) (s : store) (cs : list call)
    (L : list jstr) (m : Z) :
  key <> js "_lru" -> maxEntries (policy c) = Some m -> 1 <= m ->
  lru_record c s = Some L ->
  fst (setItem c key v (mkWorld s cs)) = Ok tt /\
  exists L', lru_record c (store_of (snd (setItem c key v (mkWorld s cs)))) = Some (L' ++ [key]) /\
             Z.of_nat (length (L' ++ [key])) <= m /\ ~ In key L' /\
             (forall x, In x L' -> In x L).
Proof.
  intros Hk Hm Hm1 HL.
  destruct (setItem_eq c key v s cs L Hk HL) as [cs' [E _]]. rewrite E.
  cbn [fst snd store_of].
  split; [reflexivity|].
  rewrite (enforced_record c _ _ (lru_record_set_lk c _ _)).
  set (F := filter (fun item => negb (jeqb item key)) L).
  set (n := victims_count c (F ++ [key])).
  assert (Hn : n = Z.to_nat (Z.max 0 (Z.of_nat (length (F ++ [key])) - m))).
  { unfold n, victims_count. rewrite Hm.
    replace (Z.eqb m 0) with false by (symmetry; apply Z.eqb_neq; lia). reflexivity. }
  assert (Hn' : (n <= length F)%nat) by (rewrite Hn, length_app; simpl length; lia).
  assert (HF : ~ In key F) by apply keep_notin.
  assert (Hsub : forall x, In x (skipn n F) -> In x F).
  { intros x Hx. rewrite <- (firstn_skipn n F). apply in_or_app. now right. }
  exists (skipn n F). split; [|split; [|split]].
  - rewrite skipn_app. now replace (n - length F)%nat with 0%nat by lia.
  - rewrite length_app, length_skipn. simpl length.
    rewrite Hn, length_app. simpl length. lia.
  - intro H. apply HF, Hsub, H.
  - intros x Hx. apply Hsub in Hx. unfold F in Hx. now apply filter_In in Hx.
Qed.

Lemma setItem_bounded_witness :
  let s := [(js "entry:_lru", rec [js "a"]); (js "entry:a", js "1")] in
  fst (setItem entry_cache (js "b") (js "2") (mkWorld s [])) = Ok tt /\
  exists L', lru_record entry_cache (store_of (snd (setItem entry_cache (js "b") (js "2")
                                                      (mkWorld s []))))
    = Some (L' ++ [js "b"]) /\
    Z.of_nat (length (L' ++ [js "b"])) <= 1 /\ ~ In (js "b") L' /\
    (forall x, In x L' -> In x [js "a"]).
Proof.
  intro s. apply (setItem_bounded entry_cache (js "b") (js "2") s [] [js "a"] 1).
  - vm_compute. discriminate.
  - reflexivity.
  - lia.
  - vm_compute. reflexivity.
Defined.

(** An LRU record text [t] that is not JSON: [setItem(key, v)] writes the
    value, then raises [SyntaxError] before writing the record;
    [removeItem(key)] deletes the entry, then raises [SyntaxError] before
    writing the record.  A record that is JSON but not an array ([null], a
    number, an object, a string) makes both raise [TypeError] at the same
    point. *)
Theorem corrupt_record_errors (c : Cache) (key v t : jstr) (s : store) (cs : list call) :
  key <> js "_lru" -> st_get (getLRUKey c) s = Some t ->
  (t <> [] -> Json.parse t = None ->
     setItem c key v (mkWorld s cs) =
       (Err SyntaxError, mkWorld (st_set (makeCompositeKey c key) v s)
          (cs ++ [CSetItem (makeCompositeKey c key) v; CGetItem (getLRUKey c)])) /\
     removeItem c (JStr key) (mkWorld s cs) =
       (Err SyntaxError, mkWorld (st_remove (makeCompositeKey c key) s)
          (cs ++ [CRemoveItem (makeCompositeKey c key); CGetItem (getLRUKey c)]))) /\
  (forall j, Json.parse t = Some j -> (forall xs, j <> JArr xs) ->
     setItem c key v (mkWorld s cs) =
       (Err TypeError, mkWorld (st_set (makeCompositeKey c key) v s)
          (cs ++ [CSetItem (makeCompositeKey c key) v; CGetItem (getLRUKey c)])) /\
     removeItem c (JStr key) (mkWorld s cs) =
       (Err TypeError, mkWorld (st_remove (makeCompositeKey c key) s)
          (cs ++ [CRemoveItem (makeCompositeKey c key); CGetItem (getLRUKey c)]))).
Proof.
  intros Hk Ht. pose proof (ck_neq_lk c key Hk) as Hne.
  pose proof (lru_value_text c s t Ht) as H1.
  assert (H2 : lru_value c (st_remove (makeCompositeKey c key) s) = decode_lru (Some (BStr t))).
  { apply lru_value_text. rewrite st_get_remove_neq; [exact Ht|].
    intro E. apply Hne. now symmetry. }
  split.
  - intros Hne' Hp. pose proof (decode_syntax t Hne' Hp) as He. split.
    + apply setItem_fails; [exact Hk|]. now rewrite H1, He.
    + apply removeItem_fails. now rewrite H2, He.
  - intros j Hp Hj. pose proof (decode_not_array t j Hp Hj) as He. split.
    + apply setItem_fails; [exact Hk|]. now rewrite H1.
    + apply removeItem_fails. now rewrite H2.
Qed.

Lemma corrupt_record_errors_witness :
  fst (setItem (plain "ns") (js "a") (js "1") (mkWorld [(js "ns:_lru", js "oops")] []))
    = Err SyntaxError /\
  fst (removeItem (plain "ns") (JStr (js "a")) (mkWorld [(js "ns:_lru", js "null")] []))
    = Err TypeError.
Proof.
  split.
  - destruct (corrupt_record_errors (plain "ns") (js "a") (js "1") (js "oops")
                [(js "ns:_lru", js "oops")] []
                ltac:(vm_compute; discriminate) ltac:(reflexivity)) as [H _].
    destruct H as [H _]; [vm_compute; discriminate|vm_compute; reflexivity|].
    rewrite H. reflexivity.
  - destruct (corrupt_record_errors (plain "ns") (js "a") (js "1") (js "null")
                [(js "ns:_lru", js "null")] []
                ltac:(vm_compute; discriminate) ltac:(reflexivity)) as [_ H].
    destruct (H JNull) as [_ H']; [vm_compute; reflexivity|intros xs; discriminate|].
    rewrite H'. reflexivity.
Defined.

(** [getAllKeys] lists every key (other than ["_lru"]) that has a backend
    entry in the namespace; in particular a key just written by [setItem]
    is listed, when [maxEntries] is unset, 0 or a positive integer and the
    LRU record holds no array item other than strings. *)
Theorem getAllKeys_complete (c : Cache) (key : jstr) :
  key <> js "_lru" ->
  (forall v s cs, st_get (makeCompositeKey c key) s = Some v ->
     exists keys, fst (getAllKeys c (mkWorld s cs)) = Ok keys /\ In key keys) /\
  ((forall m, maxEntries (policy c) = Some m -> m = 0 \/ 1 <= m) ->
   forall v w, record_strings_only c (store_of w) = true ->
   exists keys, fst (getAllKeys c (snd (setItem c key v w))) = Ok keys /\ In key keys).
Proof.
  intro Hk.
  assert (Hall : forall v s cs, st_get (makeCompositeKey c key) s = Some v ->
            exists keys, fst (getAllKeys c (mkWorld s cs)) = Ok keys /\ In key keys).
  { intros v s cs Hv. eexists. split; [reflexivity|].
    apply in_map_iff. exists (makeCompositeKey c key). split; [apply from_ck|].
    apply filter_In. split.
    - apply (Permutation_in _ (Permutation_sym (own_order_perm _ _))).
      eapply st_get_in. exact Hv.
    - change (startsWith (makeCompositeKey c key) (namespace c))
        with (startsWith (namespace c ++ (js ":" ++ key)) (namespace c)).
      rewrite startsWith_app. cbn [andb].
      apply negb_true_iff, jeqb_neq, ck_neq_lk, Hk. }
  split; [exact Hall|].
  intros Hpol v w Hstr. pose proof (setItem_keeps_value c key v w Hk Hpol Hstr) as H.
  destruct (snd (setItem c key v w)) as [s cs]. exact (Hall v s cs H).
Qed.

Lemma getAllKeys_complete_witness :
  exists keys, fst (getAllKeys entry_cache
                      (snd (setItem entry_cache (js "k") (js "v") empty_world)))
               = Ok keys /\ In (js "k") keys.
Proof.
  apply (proj2 (getAllKeys_complete entry_cache (js "k") ltac:(vm_compute; discriminate))).
  - simpl. intros m [= <-]. right. lia.
  - reflexivity.
Defined.

(** [enforceLimits] with [maxEntries = m] on a record holding (as the
    code writes it) an order list of at most [m] keys: it completes and
    leaves the backend store exactly as it was. *)
Theorem enforceLimits_under_limit (c : Cache) (m : Z) (s : store) (cs : list call)
    (L : list jstr) :
  maxEntries (policy c) = Some m ->
  st_get (getLRUKey c) s = Some (rec L) ->
  Z.of_nat (length L) <= m ->
  fst (enforceLimits c (mkWorld s cs)) = Ok tt /\
  store_of (snd (enforceLimits c (mkWorld s cs))) = s.
Proof.
  intros Hm Hs Hlen.
  destruct (Z.eq_dec m 0) as [->|Hm0].
  - rewrite enforceLimits_inactive by auto. split; reflexivity.
  - pose proof (enforceLimits_eq c m s cs L Hm Hm0 (lru_record_rec c s L Hs)) as H.
    cbv zeta in H.
    replace (Z.to_nat (Z.max 0 (Z.of_nat (length L) - m))) with 0%nat in H by lia.
    destruct H as [cs' [E _]]. rewrite E. cbn [fst snd store_of firstn skipn map fold_left].
    split; [reflexivity|]. now apply st_set_same.
Qed.

Lemma enforceLimits_under_limit_witness :
  store_of (snd (enforceLimits entry_cache
    (mkWorld [(js "entry:_lru", rec [js "a"]); (js "entry:a", js "1")] [])))
  = [(js "entry:_lru", rec [js "a"]); (js "entry:a", js "1")].
Proof.
  apply (enforceLimits_under_limit entry_cache 1 _ [] [js "a"]).
  - reflexivity.
  - reflexivity.
  - simpl. lia.
Defined.

(** [MemoryStore] as a plain JavaScript object: [getItem(k)] after
    [setItem(k, v)] is [v] for [k] other than ["__proto__"] (whose setter
    ignores a string, leaving the store as it was), and other keys are
    unaffected; [getItem(k)] after [removeItem(k)] is null, or the
    inherited [Object.prototype] member for a name such as ["toString"];
    and [getAllKeys] never lists a key twice (starting from a store that
    does not). *)
Theorem memoryStore_map (k k' v : jstr) (w : world) :
  (k <> js "__proto__" ->
   fst (Backend.getItem k (snd (Backend.setItem k v w))) = Ok (Some (BStr v))) /\
  (k' <> k -> fst (Backend.getItem k' (snd (Backend.setItem k v w))) = fst (Backend.getItem k' w)) /\
  fst (Backend.getItem k (snd (Backend.removeItem k w))) =
    Ok (if is_proto_name k then Some (BProto k) else None) /\
  store_of (snd (Backend.setItem (js "__proto__") v w)) = store_of w /\
  (NoDup (map fst (store_of w)) ->
   (exists ks, fst (Backend.getAllKeys (snd (Backend.setItem k v w))) = Ok ks /\
               NoDup ks /\ (k <> js "__proto__" -> In k ks)) /\
   (exists ks, fst (Backend.getAllKeys (snd (Backend.removeItem k w))) = Ok ks /\
               NoDup ks /\ ~ In k ks)).
Proof.
  destruct w as [s cs].
  unfold Backend.getItem, Backend.setItem, Backend.removeItem, Backend.getAllKeys, log, st_write.
  cbn [fst snd store_of].
  split; [|split; [|split; [|split]]].
  - intro H. destruct (jeqb k (js "__proto__")) eqn:E; [apply jeqb_eq in E; contradiction|].
    unfold lookup. now rewrite st_get_set_eq.
  - intro H. destruct (jeqb k (js "__proto__")); [reflexivity|].
    unfold lookup. now rewrite st_get_set_neq.
  - unfold lookup. now rewrite st_get_remove_eq.
  - now rewrite jeqb_refl.
  - intro Hnd. split.
    + eexists. split; [reflexivity|].
      destruct (jeqb k (js "__proto__")) eqn:E; split.
      * exact (Permutation_NoDup (Permutation_sym (own_order_perm _ _)) Hnd).
      * intro Hp. apply jeqb_eq in E. contradiction.
      * exact (Permutation_NoDup (Permutation_sym (own_order_perm _ _))
                 (nodup_keys_set k v s Hnd)).
      * intros _. apply (Permutation_in _ (Permutation_sym (own_order_perm _ _))).
        eapply st_get_in. apply st_get_set_eq.
    + eexists. split; [reflexivity|]. split.
      * exact (Permutation_NoDup (Permutation_sym (own_order_perm _ _))
                 (nodup_keys_remove k s Hnd)).
      * intro H. apply (Permutation_in _ (own_order_perm _ _)) in H.
        apply keys_st_remove in H. now destruct H.
Qed.

Lemma memoryStore_map_witness :
  fst (Backend.getItem (js "b") (snd (Backend.setItem (js "a") (js "1")
                                        (mkWorld [(js "b", js "2")] []))))
    = Ok (Some (BStr (js "2"))) /\
  fst (Backend.getItem (js "toString") (snd (Backend.removeItem (js "toString")
                                               (mkWorld [] []))))
    = Ok (Some (BProto (js "toString"))) /\
  exists ks, fst (Backend.getAllKeys (snd (Backend.setItem (js "b") (js "3")
                   (mkWorld [(js "b", js "2")] [])))) = Ok ks /\
             NoDup ks /\ (js "b" <> js "__proto__" -> In (js "b") ks).
Proof.
  destruct (memoryStore_map (js "b") (js "b") (js "3") (mkWorld [(js "b", js "2")] []))
    as (_ & _ & _ & _ & H5).
  destruct (memoryStore_map (js "a") (js "b") (js "1") (mkWorld [(js "b", js "2")] []))
    as (_ & H2 & _).
  destruct (memoryStore_map (js "toString") (js "toString") [] (mkWorld [] []))
    as (_ & _ & H3 & _).
  split; [|split].
  - rewrite H2 by (vm_compute; discriminate). reflexivity.
  - rewrite H3. reflexivity.
  - apply H5. simpl. constructor; [intros []|constructor].
Defined.

End Extras.
